(** * Path finder of freeciv21 (common/path_finder.cpp)

    A shallow embedding of the multi-criteria path finder: costs, vertices,
    the frontier [best_vertices], the priority queue, the turn change, the
    four expansion rules, the search loop and [find_path], followed by the
    properties of the specification that were checked against it.

    Conventions of the embedding.
    - A C++ [int] is an integer of [Z].  Signed overflow is undefined in
      C++, so the code has a meaning only where every intermediate result is
      representable; there exact arithmetic and machine arithmetic agree
      (see [Int32] at the end of the cost section).
    - A [const tile *] is the index of the tile: tiles live in one array,
      so the order of the pointers (the key order of the multimap) is the
      order of the indices.  [nullptr] is [None] where the code tests for it.
    - A [unit *] used as a transporter is the id of that unit.
    - A [vertex *] is an address of [nat]; every [make_unique] yields a
      fresh one, and an address is live while the frontier owns its vertex.
    - Functions of other files of the game (map, movement rules, actions)
      are the fields of a [world] the definitions are parameterised by. *)

From stdpp Require Import base option list gmap.
From Stdlib Require Import ZArith Lia.

Local Open Scope Z_scope.

(** ** Costs *)

Module Cost.

(** Modelled from the spec: the declaration of [detail::cost] is in
    path_finder.h; the fields are the four that the spec lists and that
    path_finder.cpp reads and writes.  (The initialiser list of
    [insert_initial_vertex] has one more value, a zero in second place,
    for a member that no function of the file reads.) *)
Record cost : Type := mk_cost {
  turns : Z;
  moves_left : Z;
  health : Z;
  fuel_left : Z;
}.

(** [std::tie(..) < std::tie(..)] on four ints: the lexicographic order of
    [std::tuple], which only uses [<] on the components. *)
Definition tie4_lt (x y : Z * Z * Z * Z) : bool :=
  let '(x0, x1, x2, x3) := x in
  let '(y0, y1, y2, y3) := y in
  (x0 <? y0) || (negb (y0 <? x0) &&
  ((x1 <? y1) || (negb (y1 <? x1) &&
  ((x2 <? y2) || (negb (y2 <? x2) &&
  (x3 <? y3)))))).

(** [std::tie(..) == std::tie(..)] on four ints. *)
Definition tie4_eq (x y : Z * Z * Z * Z) : bool :=
  let '(x0, x1, x2, x3) := x in
  let '(y0, y1, y2, y3) := y in
  (x0 =? y0) && (x1 =? y1) && (x2 =? y2) && (x3 =? y3).

(** [cost::comparable] *)
Definition comparable (this other : cost) : bool :=
  let a := turns other - turns this in
  let b := moves_left this - moves_left other in
  let c := health this - health other in
  let d := fuel_left this - fuel_left other in
  ((a <=? 0) && (b <=? 0) && (c <=? 0) && (d <=? 0))
  || ((a >=? 0) && (b >=? 0) && (c >=? 0) && (d >=? 0)).

(** [cost::operator==] *)
Definition eq (this other : cost) : bool :=
  tie4_eq (turns this, moves_left other, health other, fuel_left other)
          (turns other, moves_left this, health this, fuel_left this).

(** [cost::operator<] *)
Definition lt (this other : cost) : bool :=
  tie4_lt (turns this, moves_left other, health other, fuel_left other)
          (turns other, moves_left this, health this, fuel_left this).

(** The order that the spec describes for [less]: turns ascending, then
    moves left, health and fuel descending. *)
Definition lex_less (a b : cost) : Prop :=
  turns a < turns b
  \/ (turns a = turns b /\ moves_left a > moves_left b)
  \/ (turns a = turns b /\ moves_left a = moves_left b /\ health a > health b)
  \/ (turns a = turns b /\ moves_left a = moves_left b /\ health a = health b
      /\ fuel_left a > fuel_left b).

(** [a] is at least as good as [b] in each of the four criteria. *)
Definition dominates (a b : cost) : Prop :=
  turns a <= turns b /\ moves_left b <= moves_left a
  /\ health b <= health a /\ fuel_left b <= fuel_left a.

(** *** 32-bit view of [comparable]

    What the machine computes when [int] has 32 bits and wraps. *)
Module Int32.

Definition int_min : Z := - 2 ^ 31.
Definition int_max : Z := 2 ^ 31 - 1.
Definition representable (x : Z) : Prop := int_min <= x <= int_max.

(** Two's complement reduction of an exact result to 32 bits. *)
Definition wrap (x : Z) : Z := (x + 2 ^ 31) mod 2 ^ 32 - 2 ^ 31.

Definition comparable_wrapped (this other : cost) : bool :=
  let a := wrap (turns other - turns this) in
  let b := wrap (moves_left this - moves_left other) in
  let c := wrap (health this - health other) in
  let d := wrap (fuel_left this - fuel_left other) in
  ((a <=? 0) && (b <=? 0) && (c <=? 0) && (d <=? 0))
  || ((a >=? 0) && (b >=? 0) && (c >=? 0) && (d >=? 0)).

(** The four subtractions of [comparable] do not overflow. *)
Definition comparable_defined (this other : cost) : Prop :=
  representable (turns other - turns this)
  /\ representable (moves_left this - moves_left other)
  /\ representable (health this - health other)
  /\ representable (fuel_left this - fuel_left other).

End Int32.

End Cost.

(** ** Units, orders and vertices *)

(** A [const tile *]: the index of the tile. *)
Definition tile : Type := Z.
(** A [unit *] held as a transporter: the id of the unit. *)
Definition unit_ref : Type := Z.
(** A [vertex *]. *)
Definition address : Type := nat.

Module Unit.

(** The members of [struct unit] that the path finder reads or writes. *)
Record unit : Type := mk_unit {
  tile : Z;
  transporter : option unit_ref;
  transported_by : Z;
  moved : bool;
  fuel : Z;
  hp : Z;
  moves_left : Z;
  utype : Z;
  stay : bool;
}.

(** [probe.tile = x] and [probe.fuel = x] *)
Definition set_tile (x : Z) (u : unit) : unit :=
  mk_unit x (transporter u) (transported_by u) (moved u) (fuel u) (hp u)
    (moves_left u) (utype u) (stay u).
Definition set_fuel (x : Z) (u : unit) : unit :=
  mk_unit (tile u) (transporter u) (transported_by u) (moved u) x (hp u)
    (moves_left u) (utype u) (stay u).

End Unit.

Inductive unit_orders : Type :=
  | ORDER_MOVE
  | ORDER_FULL_MP
  | ORDER_PERFORM_ACTION.

Inductive action_id : Type :=
  | ACTION_TRANSPORT_BOARD
  | ACTION_TRANSPORT_EMBARK
  | ACTION_TRANSPORT_ALIGHT
  | ACTION_TRANSPORT_DISEMBARK1
  | ACTION_TRANSPORT_DISEMBARK2.

Inductive direction8 : Type :=
  | DIR8_ORIGIN
  | DIR8 (d : Z).

Module Order.

Record unit_order : Type := mk_order {
  order : unit_orders;
  action : option action_id;
  target : Z;
  dir : direction8;
}.

(** The value-initialised [unit_order] of the root vertex: every member
    is zero, that is the first enumerator of the orders, the action of
    number 0 (none of the five above: [None]), the tile 0 and the
    direction 0. *)
Definition zero : unit_order := mk_order ORDER_MOVE None 0 (DIR8 0).

End Order.

#[global] Instance cost_eq_dec : EqDecision Cost.cost.
Proof. solve_decision. Defined.
#[global] Instance unit_orders_eq_dec : EqDecision unit_orders.
Proof. solve_decision. Defined.
#[global] Instance action_id_eq_dec : EqDecision action_id.
Proof. solve_decision. Defined.
#[global] Instance direction8_eq_dec : EqDecision direction8.
Proof. solve_decision. Defined.
#[global] Instance unit_order_eq_dec : EqDecision Order.unit_order.
Proof. solve_decision. Defined.

Module Vertex.

Record vertex : Type := mk_vertex {
  location : tile;
  loaded : option unit_ref;
  moved : bool;
  cost : Cost.cost;
  parent : option address;
  order : Order.unit_order;
}.

(** [vertex::comparable] *)
Definition comparable (this other : vertex) : bool :=
  bool_decide ((location this, loaded this, moved this)
               = (location other, loaded other, moved other))
  && Cost.comparable (cost this) (cost other).

(** [vertex::operator==].  The right-hand tuple of the source is
    [std::tie(other.location, loaded, moved, other.cost)]: its second and
    third components are members of [this]. *)
Definition eq (this other : vertex) : bool :=
  bool_decide (location this = location other)
  && bool_decide (loaded this = loaded this)
  && bool_decide (moved this = moved this)
  && Cost.eq (cost this) (cost other).

(** [vertex::operator>] *)
Definition gt (this other : vertex) : bool :=
  Cost.lt (cost other) (cost this).

(** [vertex::fill_probe] *)
Definition fill_probe (this : vertex) (probe : Unit.unit) : Unit.unit :=
  {| Unit.tile := location this;
     Unit.transporter := loaded this;
     Unit.transported_by := match loaded this with Some t => t | None => -1 end;
     Unit.moved := moved this;
     Unit.fuel := Cost.fuel_left (cost this);
     Unit.hp := Cost.health (cost this);
     Unit.moves_left := Cost.moves_left (cost this);
     Unit.utype := Unit.utype probe;
     Unit.stay := Unit.stay probe |}.

(** Assignments to single members. *)
Definition set_location (x : tile) (v : vertex) : vertex :=
  mk_vertex x (loaded v) (moved v) (cost v) (parent v) (order v).
Definition set_loaded (x : option unit_ref) (v : vertex) : vertex :=
  mk_vertex (location v) x (moved v) (cost v) (parent v) (order v).
Definition set_moved (x : bool) (v : vertex) : vertex :=
  mk_vertex (location v) (loaded v) x (cost v) (parent v) (order v).
Definition set_cost (x : Cost.cost) (v : vertex) : vertex :=
  mk_vertex (location v) (loaded v) (moved v) x (parent v) (order v).
Definition set_parent (x : option address) (v : vertex) : vertex :=
  mk_vertex (location v) (loaded v) (moved v) (cost v) x (order v).
Definition set_order (x : Order.unit_order) (v : vertex) : vertex :=
  mk_vertex (location v) (loaded v) (moved v) (cost v) (parent v) x.

Definition set_turns (x : Z) (v : vertex) : vertex :=
  set_cost (Cost.mk_cost x (Cost.moves_left (cost v)) (Cost.health (cost v))
              (Cost.fuel_left (cost v))) v.
Definition set_moves_left (x : Z) (v : vertex) : vertex :=
  set_cost (Cost.mk_cost (Cost.turns (cost v)) x (Cost.health (cost v))
              (Cost.fuel_left (cost v))) v.
Definition set_health (x : Z) (v : vertex) : vertex :=
  set_cost (Cost.mk_cost (Cost.turns (cost v)) (Cost.moves_left (cost v)) x
              (Cost.fuel_left (cost v))) v.
Definition set_fuel_left (x : Z) (v : vertex) : vertex :=
  set_cost (Cost.mk_cost (Cost.turns (cost v)) (Cost.moves_left (cost v))
              (Cost.health (cost v)) x) v.

End Vertex.

#[global] Instance vertex_eq_dec : EqDecision Vertex.vertex.
Proof. solve_decision. Defined.

(** ** The rest of the game

    What path_finder.cpp calls in other files, and the two iteration macros
    over the neighbours of a tile. *)
Record world : Type := mk_world {
  unit_move_rate : Unit.unit -> Z;
  utype_fuel : Z -> Z;
  is_unit_being_refueled : Unit.unit -> bool;
  (** mutates the unit it is given; the result is the unit afterwards *)
  unit_restore_hitpoints : Unit.unit -> Unit.unit;
  (** [adjc_dir_iterate]: the neighbours with their directions, in order *)
  adjc_dir : tile -> list (tile * Z);
  (** [adjc_iterate]: the neighbours, in order *)
  adjc : tile -> list tile;
  (** [target->terrain != nullptr] *)
  terrain_known : tile -> bool;
  unit_can_move_to_tile : Unit.unit -> tile -> bool;
  map_move_cost_unit : Unit.unit -> tile -> Z;
  transporter_for_unit : Unit.unit -> option unit_ref;
  is_action_enabled_unit_on_unit : action_id -> Unit.unit -> unit_ref -> bool;
  is_action_enabled_unit_on_tile : action_id -> Unit.unit -> tile -> bool;
  unit_pays_mp_for_action : action_id -> Unit.unit -> Z;
}.

(** ** Outcomes of a call

    A call returns, has no defined behaviour, or (in the model only) is cut
    off when the bound on the number of loop iterations is used up. *)
Inductive undefined_behaviour : Type :=
  | TopOfEmptyQueue      (* [queue.top()] on an empty queue *)
  | DanglingVertex       (* a vertex read after [erase] destroyed it *)
  | NullVertex.          (* [best->parent] with [best == nullptr] *)

Inductive outcome (A : Type) : Type :=
  | Done (a : A)
  | Undefined (ub : undefined_behaviour)
  | OutOfFuel.

Arguments Done {A} a.
Arguments Undefined {A} ub.
Arguments OutOfFuel {A}.

#[global] Instance outcome_ret : MRet outcome := fun A a => Done a.

#[global] Instance outcome_bind : MBind outcome := fun A B f x =>
  match x with
  | Done a => f a
  | Undefined ub => Undefined ub
  | OutOfFuel => OutOfFuel
  end.

(** ** The state of a path finder: [path_finder_private] *)

(** What a [std::unique_ptr<vertex>] of the frontier holds: the address of
    the vertex and the vertex. *)
Definition entry : Type := address * Vertex.vertex.

(** Modelled from the spec: the members of [path_finder_private] are
    declared in path_finder.h.  [unit] is the copy of the unit that the
    constructor takes (the spec: the handle captures the root state),
    [best_vertices] the multimap (path_finder.cpp includes <map>) from a
    tile to the vertices of the frontier there, the keys in the order of
    the tiles and the entries of one key in the order of their insertion,
    and [queue] the priority queue with the least cost on top, kept here as
    the list of its elements in the order in which they leave it (equal
    costs leave in the order of their arrival; the standard leaves that
    order open).  [next_address] is the address that the next
    [make_unique] returns. *)
Record path_finder_private : Type := mk_state {
  unit : Unit.unit;
  best_vertices : gmap Z (list entry);
  queue : list Vertex.vertex;
  next_address : address;
}.

(** [best_vertices.equal_range(k)]: the entries under the key [k]. *)
Definition bucket (k : tile) (bv : gmap Z (list entry)) : list entry :=
  default [] (bv !! k).

(** Every entry of the multimap. *)
Definition entries (bv : gmap Z (list entry)) : list entry :=
  concat (map snd (map_to_list bv)).

(** Reading through a [vertex *]: defined while the frontier owns it. *)
Definition deref (a : address) (bv : gmap Z (list entry)) : option Vertex.vertex :=
  snd <$> List.find (fun e : entry => bool_decide (fst e = a)) (entries bv).

(** The element that follows the entries of key [k] in the order of the
    multimap, that is what the end of [equal_range(k)] points to: the first
    entry of the least key above [k]; [None] is [best_vertices.end()]. *)
Definition after_bucket (k : tile) (bv : gmap Z (list entry)) : option entry :=
  let above :=
    List.filter (fun k' => (k <? k') && negb (bool_decide (bucket k' bv = [])))
                (map fst (map_to_list bv)) in
  match above with
  | [] => None
  | k0 :: ks => head (bucket (foldr Z.min k0 ks) bv)
  end.

(** [queue.push(v)] *)
Fixpoint push (v : Vertex.vertex) (q : list Vertex.vertex) : list Vertex.vertex :=
  match q with
  | [] => [v]
  | w :: q' => if Vertex.gt w v then v :: w :: q' else w :: push v q'
  end.

(** The vertex that [insert_initial_vertex] builds from the unit. *)
Definition root_vertex (u : Unit.unit) : Vertex.vertex :=
  Vertex.mk_vertex (Unit.tile u) (Unit.transporter u) (Unit.moved u)
    (Cost.mk_cost 0 (Unit.moves_left u) (Unit.hp u) (Unit.fuel u))
    None Order.zero.

(** [queue.pop()] *)
Definition pop (st : path_finder_private) : path_finder_private :=
  {| unit := unit st; best_vertices := best_vertices st;
     queue := tail (queue st); next_address := next_address st |}.

(** [path_finder_private::insert_initial_vertex] *)
Definition insert_initial_vertex (st : path_finder_private) : path_finder_private :=
  let v := root_vertex (unit st) in
  {| unit := unit st;
     best_vertices :=
       <[Vertex.location v := bucket (Vertex.location v) (best_vertices st)
                              ++ [(next_address st, v)]]> (best_vertices st);
     queue := push v (queue st);
     next_address := S (next_address st) |}.

(** The constructor of [path_finder]. *)
Definition construct (u : Unit.unit) : path_finder_private :=
  insert_initial_vertex
    {| unit := u; best_vertices := ∅; queue := []; next_address := O |}.

(** [path_finder::unit_changed].  Its argument is unused ([Q_UNUSED]). *)
Definition unit_changed (changed : Unit.unit) (st : path_finder_private)
  : path_finder_private :=
  insert_initial_vertex
    {| unit := unit st; best_vertices := ∅; queue := [];
       next_address := next_address st |}.

(** ** The operations of [path_finder_private] *)

Section PathFinder.

Context (W : world).

(** The "Handle turn change" block of [maybe_insert_vertex], up to the end
    of the [if]: the vertex to insert, or [None] where the function
    returns without inserting anything. *)
Definition turn_change (u : Unit.unit) (v : Vertex.vertex) : option Vertex.vertex :=
  let insert := v in
  if Cost.moves_left (Vertex.cost v) <=? 0 then
    let probe := Vertex.fill_probe v u in
    let insert := Vertex.set_turns (Cost.turns (Vertex.cost insert) + 1) insert in
    let insert := Vertex.set_moves_left (unit_move_rate W probe) insert in
    (* Fuel *)
    let fuelled : option (Unit.unit * Vertex.vertex) :=
      if negb (utype_fuel W (Unit.utype probe) =? 0) then
        if is_unit_being_refueled W probe then
          let probe := Unit.set_fuel (utype_fuel W (Unit.utype probe)) probe in
          Some (probe, Vertex.set_fuel_left (Unit.fuel probe) insert)
        else if Unit.fuel probe <=? 1 then
          None
        else
          let probe := Unit.set_fuel (Unit.fuel probe - 1) probe in
          Some (probe, Vertex.set_fuel_left
                         (Cost.fuel_left (Vertex.cost insert) - 1) insert)
      else Some (probe, insert) in
    match fuelled with
    | None => None
    | Some (probe, insert) =>
        (* HP loss and recovery *)
        let probe := unit_restore_hitpoints W probe in
        if Unit.hp probe <=? 0 then None
        else
          let insert := Vertex.set_health (Unit.hp probe) insert in
          Some (Vertex.set_moved false insert)
    end
  else Some insert.

(** The loop of [maybe_insert_vertex] over the entries at one tile: the
    entries that stay, and [do_insert]. *)
Fixpoint scan (insert : Vertex.vertex) (range : list entry) : list entry * bool :=
  match range with
  | [] => ([], true)
  | it :: rest =>
      let comparable := Vertex.comparable (snd it) insert in
      if comparable && Cost.lt (Vertex.cost insert) (Vertex.cost (snd it)) then
        scan insert rest
      else if comparable then
        (it :: rest, false)
      else
        let '(kept, do_insert) := scan insert rest in (it :: kept, do_insert)
  end.

(** [path_finder_private::maybe_insert_vertex] *)
Definition maybe_insert_vertex (v : Vertex.vertex) (st : path_finder_private)
  : path_finder_private :=
  match turn_change (unit st) v with
  | None => st
  | Some insert =>
      let '(kept, do_insert) := scan insert (bucket (Vertex.location v) (best_vertices st)) in
      if do_insert then
        {| unit := unit st;
           best_vertices :=
             <[Vertex.location v := kept ++ [(next_address st, insert)]]> (best_vertices st);
           queue := push insert (queue st);
           next_address := S (next_address st) |}
      else
        {| unit := unit st;
           best_vertices := <[Vertex.location v := kept]> (best_vertices st);
           queue := queue st;
           next_address := next_address st |}
  end.

(** [vertex::child_for_action], for the vertex [this] stored at [self]. *)
Definition child_for_action (self : address) (this : Vertex.vertex)
    (action : action_id) (probe : Unit.unit) (target : tile) : Vertex.vertex :=
  let ret := this in
  let ret := Vertex.set_parent (Some self) ret in
  let ret := Vertex.set_order
               (Order.mk_order ORDER_PERFORM_ACTION (Some action) target DIR8_ORIGIN) ret in
  Vertex.set_moves_left (unit_pays_mp_for_action W action probe) ret.

(** One turn of a loop of an expansion rule, as far as the source vertex
    is concerned: the rule reads the source and goes on, or reads it and
    hands a new vertex to [maybe_insert_vertex]. *)
Inductive event : Type :=
  | Read
  | Candidate (next : Vertex.vertex).

(** The body of [attempt_move] after the probe is made. *)
Definition move_events (u : Unit.unit) (self : address) (source : Vertex.vertex)
  : list event :=
  if bool_decide (Vertex.loaded source = None) then
    let probe := Vertex.fill_probe source u in
    flat_map (fun '(target, dir) =>
      if negb (terrain_known W target) then []
      else if unit_can_move_to_tile W probe target then
        let move_cost := Z.min (map_move_cost_unit W probe target) (Unit.moves_left probe) in
        let next := source in
        let next := Vertex.set_location target next in
        let next := Vertex.set_moved true next in
        let next := Vertex.set_moves_left
                      (Cost.moves_left (Vertex.cost next) - move_cost) next in
        let next := Vertex.set_parent (Some self) next in
        let next := Vertex.set_order
                      (Order.mk_order ORDER_MOVE (Order.action (Vertex.order next))
                         (Order.target (Vertex.order next)) (DIR8 dir)) next in
        [Candidate next]
      else [])
      (adjc_dir W (Vertex.location source))
  else [].

(** The body of [attempt_full_mp]. *)
Definition full_mp_events (self : address) (source : Vertex.vertex) : list event :=
  let next := source in
  let next := Vertex.set_moves_left 0 next in
  let next := Vertex.set_parent (Some self) next in
  let next := Vertex.set_order
                (Order.mk_order ORDER_FULL_MP (Order.action (Vertex.order next))
                   (Order.target (Vertex.order next)) (Order.dir (Vertex.order next))) next in
  [Candidate next].

(** The body of [attempt_load]. *)
Definition load_events (u : Unit.unit) (self : address) (source : Vertex.vertex)
  : list event :=
  let probe := Vertex.fill_probe source u in
  (* Same tile *)
  match transporter_for_unit W probe with
  | Some transport =>
      if is_action_enabled_unit_on_unit W ACTION_TRANSPORT_BOARD probe transport then
        let next := child_for_action self source ACTION_TRANSPORT_BOARD probe
                      (Unit.tile probe) in
        [Candidate (Vertex.set_loaded (Some transport) next)]
      else []
  | None => []
  end
  ++
  (* Nearby tiles *)
  flat_map (fun target =>
    match transporter_for_unit W (Unit.set_tile target probe) with
    | Some transport =>
        if is_action_enabled_unit_on_unit W ACTION_TRANSPORT_EMBARK probe transport then
          let next := child_for_action self source ACTION_TRANSPORT_EMBARK probe target in
          let next := Vertex.set_moves_left
                        (Cost.moves_left (Vertex.cost next)
                         - map_move_cost_unit W probe target) next in
          let next := Vertex.set_moved true next in
          [Candidate (Vertex.set_loaded (Some transport) next)]
        else [Read]
    | None => [Read]
    end)
    (adjc W (Unit.tile probe)).

(** A vertex made by one of the two disembark actions. *)
Definition disembark (self : address) (source : Vertex.vertex) (action : action_id)
    (probe : Unit.unit) (target : tile) : Vertex.vertex :=
  let next := child_for_action self source action probe target in
  let next := Vertex.set_moved true next in
  let next := Vertex.set_loaded None next in
  Vertex.set_moves_left
    (Cost.moves_left (Vertex.cost next) - map_move_cost_unit W probe target) next.

(** The body of [attempt_unload]. *)
Definition unload_events (u : Unit.unit) (self : address) (source : Vertex.vertex)
  : list event :=
  let probe := Vertex.fill_probe source u in
  match Unit.transporter probe with
  | Some transporter =>
      (* Same tile *)
      (if is_action_enabled_unit_on_unit W ACTION_TRANSPORT_ALIGHT probe transporter then
         let next := child_for_action self source ACTION_TRANSPORT_ALIGHT probe
                       (Unit.tile probe) in
         [Candidate (Vertex.set_loaded None next)]
       else [])
      ++
      (* Nearby tiles *)
      flat_map (fun target =>
        (if is_action_enabled_unit_on_tile W ACTION_TRANSPORT_DISEMBARK1 probe target then
           [Candidate (disembark self source ACTION_TRANSPORT_DISEMBARK1 probe target)]
         else [])
        ++
        (if is_action_enabled_unit_on_tile W ACTION_TRANSPORT_DISEMBARK2 probe target then
           [Candidate (disembark self source ACTION_TRANSPORT_DISEMBARK2 probe target)]
         else []))
        (adjc W (Unit.tile probe))
  | None => []
  end.

(** Runs the turns of a rule on the vertex stored at [self].  The source
    is a reference into the frontier: each turn reads it, which has no
    defined behaviour once an insertion has evicted it. *)
Fixpoint run_events (self : address) (evs : list event) (st : path_finder_private)
  : outcome path_finder_private :=
  match evs with
  | [] => Done st
  | ev :: evs' =>
      match deref self (best_vertices st) with
      | None => Undefined DanglingVertex
      | Some _ =>
          run_events self evs'
            match ev with
            | Read => st
            | Candidate next => maybe_insert_vertex next st
            end
      end
  end.

(** An expansion rule applied to the vertex stored at [self]. *)
Definition attempt (events : Unit.unit -> address -> Vertex.vertex -> list event)
    (self : address) (st : path_finder_private) : outcome path_finder_private :=
  match deref self (best_vertices st) with
  | None => Undefined DanglingVertex
  | Some source => run_events self (events (unit st) self source) st
  end.

Definition attempt_move := attempt move_events.
Definition attempt_full_mp := attempt (fun _ => full_mp_events).
Definition attempt_load := attempt load_events.
Definition attempt_unload := attempt unload_events.

(** The four expansion rules by name. *)
Inductive rule : Type := Move | FullMp | Load | Unload.

Definition rule_events (r : rule) : Unit.unit -> address -> Vertex.vertex -> list event :=
  match r with
  | Move => move_events
  | FullMp => fun _ => full_mp_events
  | Load => load_events
  | Unload => unload_events
  end.

Definition apply_rule (r : rule) : address -> path_finder_private -> outcome path_finder_private :=
  match r with
  | Move => attempt_move
  | FullMp => attempt_full_mp
  | Load => attempt_load
  | Unload => attempt_unload
  end.

(** The four rules in the order of [run_search]. *)
Definition expand (self : address) (st : path_finder_private)
  : outcome path_finder_private :=
  st ← attempt_move self st;
  st ← attempt_full_mp self st;
  st ← attempt_load self st;
  attempt_unload self st.

(** The first test of [run_search]: a vertex is known at the tile and the
    top of the queue is not cheaper.  [best_vertices.find] gives the first
    entry of the key (the standard allows any entry of the key; the
    libraries in use give the first); [&&] reads the top of the queue only
    when an entry was found. *)
Definition already_found (stopping_condition : tile) (st : path_finder_private)
  : outcome bool :=
  match head (bucket stopping_condition (best_vertices st)) with
  | None => Done false
  | Some it =>
      match queue st with
      | [] => Undefined TopOfEmptyQueue
      | top :: _ => Done (negb (Cost.lt (Vertex.cost top) (Vertex.cost (snd it))))
      end
  end.

(** [std::find_if] over [equal_range(v.location)] followed by the test
    [it == best_vertices.end()]: the entry that [it] points to, [None] when
    [it] is the end of the multimap. *)
Definition current_best (v : Vertex.vertex) (bv : gmap Z (list entry)) : option entry :=
  match List.find (fun it : entry => Vertex.eq (snd it) v)
                  (bucket (Vertex.location v) bv) with
  | Some it => Some it
  | None => after_bucket (Vertex.location v) bv
  end.

(** What one turn of the [while] loop of [run_search] does. *)
Inductive iteration : Type :=
  | Exhausted                                         (* the queue is empty *)
  | Arrived                                           (* [return true] *)
  | Skipped (st : path_finder_private)                (* [continue] *)
  | Expanded (parent : entry) (st : path_finder_private).

Definition iterate (stopping_condition : tile) (st : path_finder_private)
  : outcome iteration :=
  match queue st with
  | [] => Done Exhausted
  | v :: _ =>
      if bool_decide (Vertex.location v = stopping_condition) then Done Arrived
      else
        let st := pop st in
        match current_best v (best_vertices st) with
        | None => Done (Skipped st)
        | Some parent =>
            st ← expand (fst parent) st;
            Done (Expanded parent st)
        end
  end.

(** The [while] loop of [run_search], for at most [fuel] turns. *)
Fixpoint search_loop (fuel : nat) (stopping_condition : tile)
    (st : path_finder_private) : outcome (bool * path_finder_private) :=
  match fuel with
  | O => OutOfFuel
  | S fuel' =>
      it ← iterate stopping_condition st;
      match it with
      | Exhausted => Done (false, st)
      | Arrived => Done (true, st)
      | Skipped st' => search_loop fuel' stopping_condition st'
      | Expanded _ st' => search_loop fuel' stopping_condition st'
      end
  end.

(** [path_finder_private::run_search] *)
Definition run_search (fuel : nat) (stopping_condition : tile)
    (st : path_finder_private) : outcome (bool * path_finder_private) :=
  found ← already_found stopping_condition st;
  if found : bool then Done (true, st)
  else search_loop fuel stopping_condition st.

(** A [path::step]. *)
Definition step : Type := tile * Z * Z * Order.unit_order.

(** What [find_path] returns, and whether [fc_assert_ret_val] failed. *)
Record find_path_result : Type := mk_result {
  assertion_failed : bool;
  steps : list step;
}.

(** The selection of the best vertex at the destination. *)
Definition select_best (range : list entry) : option Vertex.vertex :=
  fold_left (fun best (it : entry) =>
    match best with
    | None => Some (snd it)
    | Some b => if Cost.lt (Vertex.cost (snd it)) (Vertex.cost b)
                then Some (snd it) else Some b
    end) range None.

(** The loop of [find_path] that follows the parents, for at most [fuel]
    steps; the steps are in the order of [push_back]. *)
Fixpoint build_steps (fuel : nat) (bv : gmap Z (list entry)) (vertex : Vertex.vertex)
  : outcome (list step) :=
  match Vertex.parent vertex with
  | None => Done []
  | Some p =>
      match fuel with
      | O => OutOfFuel
      | S fuel' =>
          match deref p bv with
          | None => Undefined DanglingVertex
          | Some parent =>
              rest ← build_steps fuel' bv parent;
              Done ((Vertex.location vertex, Cost.turns (Vertex.cost vertex),
                     Cost.turns (Vertex.cost vertex), Vertex.order vertex) :: rest)
          end
      end
  end.

(** [path_finder::find_path] *)
Definition find_path (fuel : nat) (destination : option tile)
    (st : path_finder_private) : outcome (find_path_result * path_finder_private) :=
  match destination with
  | None => Done (mk_result true [], st)
  | Some destination =>
      if Unit.stay (unit st) then Done (mk_result false [], st)
      else if bool_decide (Unit.tile (unit st) = destination) then
        Done (mk_result false [], st)
      else
        '(found, st) ← run_search fuel destination st;
        if found : bool then
          match select_best (bucket destination (best_vertices st)) with
          | None => Undefined NullVertex
          | Some best =>
              steps ← build_steps fuel (best_vertices st) best;
              Done (mk_result false (rev steps), st)
          end
        else Done (mk_result false [], st)
  end.

(** The state after [n] more turns of the loop of [run_search], while the
    loop goes on. *)
Fixpoint iterations (n : nat) (stopping_condition : tile) (st : path_finder_private)
  : outcome path_finder_private :=
  match n with
  | O => Done st
  | S n' =>
      it ← iterate stopping_condition st;
      match it with
      | Exhausted | Arrived => Done st
      | Skipped st' | Expanded _ st' => iterations n' stopping_condition st'
      end
  end.

End PathFinder.

(** The state that a call left behind, [st] if it left none. *)
Definition state_after {A : Type} (st : path_finder_private)
    (o : outcome (A * path_finder_private)) : path_finder_private :=
  match o with
  | Done (_, st') => st'
  | _ => st
  end.

Definition state_of (st : path_finder_private) (o : outcome path_finder_private)
  : path_finder_private :=
  match o with
  | Done st' => st'
  | _ => st
  end.

(** ** Two small worlds

    Land units without fuel or transports on a handful of tiles; they are
    the concrete inputs of the examples below. *)

(** A unit that stands on tile 0 with [moves] move fragments left. *)
Definition walker (moves : Z) : Unit.unit :=
  {| Unit.tile := 0; Unit.transporter := None; Unit.transported_by := -1;
     Unit.moved := false; Unit.fuel := 0; Unit.hp := 10;
     Unit.moves_left := moves; Unit.utype := 0; Unit.stay := false |}.

(** A world without fuel, healing or transports; [rate] is the move rate
    of every unit, [neighbours] lists the adjacent tiles with directions
    and [move_cost from to] is the cost of a move. *)
Definition land_world (rate : Z) (neighbours : tile -> list (tile * Z))
    (move_cost : tile -> tile -> Z) : world :=
  {| unit_move_rate := fun _ => rate;
     utype_fuel := fun _ => 0;
     is_unit_being_refueled := fun _ => false;
     unit_restore_hitpoints := fun u => u;
     adjc_dir := neighbours;
     adjc := fun t => map fst (neighbours t);
     terrain_known := fun _ => true;
     unit_can_move_to_tile := fun _ _ => true;
     map_move_cost_unit := fun u target => move_cost (Unit.tile u) target;
     transporter_for_unit := fun _ => None;
     is_action_enabled_unit_on_unit := fun _ _ _ => false;
     is_action_enabled_unit_on_tile := fun _ _ _ => false;
     unit_pays_mp_for_action := fun _ _ => 0 |}.

(** Tiles 0 and 1 are adjacent, a move costs one fragment and a turn gives
    one fragment; no other tile can be reached. *)
Definition two_tiles : world :=
  land_world 1
    (fun t => if t =? 0 then [(1, 4)] else if t =? 1 then [(0, 3)] else [])
    (fun _ _ => 1).

(** Tiles 0, 1 and 2 are adjacent to each other; the move between 0 and 1
    costs three fragments, the others one; a turn gives five fragments. *)
Definition triangle : world :=
  land_world 5
    (fun t => if t =? 0 then [(1, 4); (2, 6)]
              else if t =? 1 then [(0, 3); (2, 7)]
              else if t =? 2 then [(0, 1); (1, 0)]
              else [])
    (fun a b => if (a + b =? 1) then 3 else 1).

(** Tile 0 leads to tiles 1, 2 and 3 at the costs 3, 4 and 1, tile 3 to
    tile 1 and tile 2 to tile 4 at the cost 1; a turn gives five fragments. *)
Definition detour : world :=
  land_world 5
    (fun t => if t =? 0 then [(1, 0); (2, 1); (3, 2)]
              else if t =? 3 then [(1, 3)]
              else if t =? 2 then [(4, 4)]
              else [])
    (fun a b => if (a =? 0) && (b =? 1) then 3
                else if (a =? 0) && (b =? 2) then 4
                else 1).

(** A world of aircraft: three units of fuel, refuelled on tile 0 only;
    at the change of turn a unit loses four hit points on tile 9 and none
    elsewhere. *)
Definition air_world : world :=
  {| unit_move_rate := fun _ => 2;
     utype_fuel := fun _ => 3;
     is_unit_being_refueled := fun u => Unit.tile u =? 0;
     unit_restore_hitpoints := fun u =>
       Unit.mk_unit (Unit.tile u) (Unit.transporter u) (Unit.transported_by u)
         false (Unit.fuel u)
         (if Unit.tile u =? 9 then Unit.hp u - 4 else Unit.hp u)
         (Unit.moves_left u) (Unit.utype u) (Unit.stay u);
     adjc_dir := fun _ => [];
     adjc := fun _ => [];
     terrain_known := fun _ => true;
     unit_can_move_to_tile := fun _ _ => true;
     map_move_cost_unit := fun _ _ => 1;
     transporter_for_unit := fun _ => None;
     is_action_enabled_unit_on_unit := fun _ _ _ => false;
     is_action_enabled_unit_on_tile := fun _ _ _ => false;
     unit_pays_mp_for_action := fun _ _ => 0 |}.

(** A search on [detour] in its seventh turn of the loop: the unit began
    on tile 0 with three move fragments, the search is for the unreachable
    tile 9, and the vertex that waited a turn on tile 3 has just left the
    queue.  Tile 1 holds three entries by then: a wait (turn 1, five
    fragments, not moved), the arrival by way of tile 3 in the first turn
    (turn 0, one fragment) and the arrival by the direct move in the second
    turn (turn 1, two fragments). *)
Definition detour_searching : path_finder_private :=
  pop (state_of (construct (walker 3))
         (iterations detour 6 9 (construct (walker 3)))).

(** The vertex that [attempt_move] makes next: from the wait on tile 3,
    stored at address 6, to tile 1 with four fragments left. *)
Definition detour_shortcut : Vertex.vertex :=
  Vertex.mk_vertex 1 None true (Cost.mk_cost 1 4 10 0) (Some 6%nat)
    (Order.mk_order ORDER_MOVE None 0 (DIR8 3)).

(** The entry at tile 1 for the direct move in the second turn. *)
Definition detour_direct : entry :=
  (8%nat, Vertex.mk_vertex 1 None true (Cost.mk_cost 1 2 10 0) (Some 4%nat)
            (Order.mk_order ORDER_MOVE None 0 (DIR8 0))).

(** An aircraft on tile [t] at the end of its moves. *)
Definition aircraft_at (t : tile) (hp fuel : Z) : Vertex.vertex :=
  Vertex.mk_vertex t None true (Cost.mk_cost 0 0 hp fuel) (Some O) Order.zero.

(** ** Predicates of the statements *)

(** The vertex that leaves the change of turn when the unit survives:
    one more turn, the move rate of the probe, the fuel [fuel] and the hit
    points [hp], not moved. *)
Definition next_turn (W : world) (v : Vertex.vertex) (u : Unit.unit) (fuel hp : Z) : Vertex.vertex :=
  Vertex.mk_vertex (Vertex.location v) (Vertex.loaded v) false
    (Cost.mk_cost (Cost.turns (Vertex.cost v) + 1)
       (unit_move_rate W (Vertex.fill_probe v u)) hp fuel)
    (Vertex.parent v) (Vertex.order v).

(** No entry of the range is comparable with another one that comes
    before it in the order of the queue: nobody is strictly better than a
    comparable neighbour. *)
Definition no_strictly_better (range : list entry) : Prop :=
  forall (i j : nat) (a b : entry),
    i <> j -> range !! i = Some a -> range !! j = Some b ->
    Vertex.comparable a.2 b.2 = true ->
    Cost.lt (Vertex.cost a.2) (Vertex.cost b.2) = false.

(** No two entries of the range are comparable at all. *)
Definition pairwise_incomparable (range : list entry) : Prop :=
  forall (i j : nat) (a b : entry),
    i <> j -> range !! i = Some a -> range !! j = Some b ->
    Vertex.comparable a.2 b.2 = false.

(** The invariant in the words of the specification: of two comparable
    entries of the range, neither is at least as good as the other in all
    four criteria. *)
Definition non_dominated (range : list entry) : Prop :=
  forall (i j : nat) (a b : entry),
    i <> j -> range !! i = Some a -> range !! j = Some b ->
    Vertex.comparable a.2 b.2 = true ->
    ~ Cost.dominates (Vertex.cost a.2) (Vertex.cost b.2).

(** The invariant of the frontier: at no tile are two entries comparable. *)
Definition frontier_incomparable (st : path_finder_private) : Prop :=
  forall k : tile, pairwise_incomparable (bucket k (best_vertices st)).

(** The states that a path finder goes through: made by the constructor,
    then changed by calls of [unit_changed] and by calls of [find_path]
    that return. *)
Inductive reachable (W : world) : path_finder_private -> Prop :=
  | reachable_construct (u : Unit.unit) :
      reachable W (construct u)
  | reachable_unit_changed (changed : Unit.unit) (st : path_finder_private) :
      reachable W st -> reachable W (unit_changed changed st)
  | reachable_find_path (fuel : nat) (destination : option tile)
      (st st' : path_finder_private) (r : find_path_result) :
      reachable W st -> find_path W fuel destination st = Done (r, st') ->
      reachable W st'.

(** What holds of the frontier and the queue in these states: a vertex
    without parent is at the tile of the unit, and the tile of a vertex of
    the queue has an entry in the frontier. *)
Definition well_formed (st : path_finder_private) : Prop :=
  (forall (k : tile) (e : entry),
     e ∈ bucket k (best_vertices st) -> Vertex.parent e.2 = None ->
     k = Unit.tile (unit st))
  /\ (forall v : Vertex.vertex,
        v ∈ queue st -> bucket (Vertex.location v) (best_vertices st) <> []).

(** * Properties *)

(** ** Costs: the order of the queue and comparability *)

Ltac cost_bools :=
  repeat match goal with
  | H : _ && _ = true |- _ => apply andb_prop in H; destruct H
  | H : _ || _ = true |- _ => apply orb_prop in H; destruct H
  | H : negb _ = true |- _ => apply negb_true_iff in H
  | H : (_ <? _) = true |- _ => apply Z.ltb_lt in H
  | H : (_ <? _) = false |- _ => apply Z.ltb_ge in H
  | H : (_ <=? _) = true |- _ => apply Z.leb_le in H
  | H : (_ <=? _) = false |- _ => apply Z.leb_gt in H
  | H : (_ >=? _) = true |- _ => apply Z.geb_le in H
  | H : (_ =? _) = true |- _ => apply Z.eqb_eq in H
  | H : (_ =? _) = false |- _ => apply Z.eqb_neq in H
  end.

Lemma wrap_representable x : Cost.Int32.representable x -> Cost.Int32.wrap x = x.
Proof.
  unfold Cost.Int32.representable, Cost.Int32.int_min, Cost.Int32.int_max,
    Cost.Int32.wrap.
  intros Hx. rewrite Z.mod_small by lia. lia.
Qed.

(** Where the subtractions of [comparable] are defined in C++, the
    machine computes what the embedding computes. *)
Lemma comparable_wrapped_exact this other :
  Cost.Int32.comparable_defined this other ->
  Cost.Int32.comparable_wrapped this other = Cost.comparable this other.
Proof.
  intros (Ha & Hb & Hc & Hd).
  unfold Cost.Int32.comparable_wrapped, Cost.comparable.
  by rewrite !wrap_representable.
Qed.

Lemma lt_spec a b : Cost.lt a b = true <-> Cost.lex_less a b.
Proof.
  unfold Cost.lt, Cost.tie4_lt, Cost.lex_less. destruct a, b; simpl. split.
  - intros H. cost_bools; lia.
  - intros H.
    destruct (Z.ltb_spec turns turns0); simpl; [done|].
    destruct (Z.ltb_spec turns0 turns); simpl; [lia|].
    destruct (Z.ltb_spec moves_left0 moves_left); simpl; [done|].
    destruct (Z.ltb_spec moves_left moves_left0); simpl; [lia|].
    destruct (Z.ltb_spec health0 health); simpl; [done|].
    destruct (Z.ltb_spec health health0); simpl; [lia|].
    apply Z.ltb_lt. lia.
Qed.

Lemma lt_false_spec a b : Cost.lt a b = false <-> ~ Cost.lex_less a b.
Proof.
  rewrite <- lt_spec. destruct (Cost.lt a b); split; intros; done.
Qed.

Lemma eq_spec a b : Cost.eq a b = true <-> a = b.
Proof.
  unfold Cost.eq, Cost.tie4_eq. destruct a, b; simpl. split.
  - intros H. cost_bools. f_equal; lia.
  - intros [= -> -> -> ->]. by rewrite !Z.eqb_refl.
Qed.

Lemma comparable_spec a b :
  Cost.comparable a b = true <-> Cost.dominates b a \/ Cost.dominates a b.
Proof.
  unfold Cost.comparable, Cost.dominates. destruct a, b; simpl. split.
  - intros H. cost_bools; [left|right]; lia.
  - intros [H|H]; apply orb_true_iff; [left|right];
      rewrite !andb_true_iff, ?Z.leb_le, ?Z.geb_le; lia.
Qed.

Lemma comparable_sym a b : Cost.comparable a b = Cost.comparable b a.
Proof.
  apply eq_true_iff_eq. rewrite !comparable_spec. tauto.
Qed.

Lemma lex_less_irrefl a : ~ Cost.lex_less a a.
Proof. unfold Cost.lex_less. lia. Qed.

Lemma lex_less_trans a b c :
  Cost.lex_less a b -> Cost.lex_less b c -> Cost.lex_less a c.
Proof. unfold Cost.lex_less. lia. Qed.

Lemma lex_less_total a b : a <> b -> Cost.lex_less a b \/ Cost.lex_less b a.
Proof.
  unfold Cost.lex_less. destruct a as [t m h f], b as [t' m' h' f']; simpl.
  intros Hne.
  destruct (decide (t = t')) as [->|]; [|lia].
  destruct (decide (m = m')) as [->|]; [|lia].
  destruct (decide (h = h')) as [->|]; [|lia].
  destruct (decide (f = f')) as [->|]; [done|lia].
Qed.

(** A comparable cost that comes first in the order of the queue is at
    least as good in every criterion, and the other way round. *)
Lemma comparable_lt_dominates a b :
  Cost.comparable a b = true -> Cost.lt a b = true -> Cost.dominates a b.
Proof.
  rewrite comparable_spec, lt_spec. unfold Cost.dominates, Cost.lex_less. lia.
Qed.

Lemma comparable_not_lt_dominates a b :
  Cost.comparable a b = true -> Cost.lt a b = false -> Cost.dominates b a.
Proof.
  rewrite comparable_spec, lt_false_spec. unfold Cost.dominates, Cost.lex_less. lia.
Qed.

(** C7: [cost::operator<] is the lexicographic comparison on turns
    ascending, then moves left, health and fuel left descending, and it is a
    strict total order: irreflexive, transitive, and any two distinct costs
    are ordered one way or the other. *)
Theorem cost_lt_lexicographic_strict_total :
  (forall a b : Cost.cost,
     Cost.lt a b = true <->
     Cost.turns a < Cost.turns b
     \/ (Cost.turns a = Cost.turns b /\ Cost.moves_left a > Cost.moves_left b)
     \/ (Cost.turns a = Cost.turns b /\ Cost.moves_left a = Cost.moves_left b
         /\ Cost.health a > Cost.health b)
     \/ (Cost.turns a = Cost.turns b /\ Cost.moves_left a = Cost.moves_left b
         /\ Cost.health a = Cost.health b /\ Cost.fuel_left a > Cost.fuel_left b))
  /\ (forall a : Cost.cost, Cost.lt a a = false)
  /\ (forall a b c : Cost.cost,
        Cost.lt a b = true -> Cost.lt b c = true -> Cost.lt a c = true)
  /\ (forall a b : Cost.cost,
        a <> b -> Cost.lt a b = true \/ Cost.lt b a = true)
  /\ (forall a b : Cost.cost,
        Cost.eq a b = false -> Cost.lt a b = true \/ Cost.lt b a = true).
Proof.
  split; [|split; [|split; [|split]]].
  - intros a b. apply lt_spec.
  - intros a. apply lt_false_spec, lex_less_irrefl.
  - intros a b c. rewrite !lt_spec. apply lex_less_trans.
  - intros a b Hne. rewrite !lt_spec. by apply lex_less_total.
  - intros a b Hne. rewrite !lt_spec. apply lex_less_total.
    intros ->. assert (Cost.eq b b = true) by by apply eq_spec. congruence.
Qed.

(** The order at three costs: fewer turns first, then more moves left. *)
Lemma cost_lt_lexicographic_strict_total_witness :
  Cost.lt (Cost.mk_cost 0 2 10 0) (Cost.mk_cost 1 3 10 0) = true.
Proof.
  exact (proj1 (proj2 (proj2 cost_lt_lexicographic_strict_total))
           (Cost.mk_cost 0 2 10 0) (Cost.mk_cost 0 1 10 0) (Cost.mk_cost 1 3 10 0)
           eq_refl eq_refl).
Defined.

(** C10: [cost::comparable] is reflexive and symmetric. *)
Theorem cost_comparable_reflexive_symmetric :
  (forall a : Cost.cost, Cost.comparable a a = true)
  /\ (forall a b : Cost.cost,
        Cost.comparable a b = true <-> Cost.comparable b a = true).
Proof.
  split.
  - intros a. apply comparable_spec. left. unfold Cost.dominates. lia.
  - intros a b. by rewrite comparable_sym.
Qed.

(** ** Vertices *)

Lemma vertex_comparable_spec a b :
  Vertex.comparable a b = true <->
  Vertex.location a = Vertex.location b /\ Vertex.loaded a = Vertex.loaded b
  /\ Vertex.moved a = Vertex.moved b
  /\ Cost.comparable (Vertex.cost a) (Vertex.cost b) = true.
Proof.
  unfold Vertex.comparable.
  rewrite andb_true_iff, bool_decide_eq_true. split.
  - intros [[= ? ? ?] ?]. done.
  - intros (-> & -> & -> & ?). done.
Qed.

Lemma vertex_comparable_sym a b : Vertex.comparable a b = Vertex.comparable b a.
Proof.
  apply eq_true_iff_eq. rewrite !vertex_comparable_spec, comparable_sym.
  intuition congruence.
Qed.

(** What [vertex::operator==] decides: the locations and the costs. *)
Lemma vertex_eq_spec a b :
  Vertex.eq a b = true <->
  Vertex.location a = Vertex.location b /\ Vertex.cost a = Vertex.cost b.
Proof.
  unfold Vertex.eq.
  rewrite !andb_true_iff, !bool_decide_eq_true, eq_spec. tauto.
Qed.

(** C2 (the code departs from it): two vertices that differ only in
    [moved], and two that differ only in [loaded], compare equal with
    [vertex::operator==], although they are not comparable. *)
Theorem vertex_eq_ignores_loaded_and_moved :
  let c := Cost.mk_cost 0 3 10 0 in
  let a := Vertex.mk_vertex 5 None false c None Order.zero in
  let b := Vertex.mk_vertex 5 None true c None Order.zero in
  let l := Vertex.mk_vertex 5 (Some 7) false c None Order.zero in
  Vertex.eq a b = true /\ Vertex.moved a <> Vertex.moved b
  /\ Vertex.eq a l = true /\ Vertex.loaded a <> Vertex.loaded l
  /\ Vertex.comparable a b = false /\ Vertex.comparable a l = false.
Proof. cbv zeta. repeat split; try done. Qed.

(** ** The change of turn *)

Section TurnChange.

Context (W : world).

Lemma turn_change_moves_left (u : Unit.unit) (v : Vertex.vertex) :
  0 < Cost.moves_left (Vertex.cost v) -> turn_change W u v = Some v.
Proof.
  intros Hm. unfold turn_change.
  destruct (Z.leb_spec (Cost.moves_left (Vertex.cost v)) 0); [lia|done].
Qed.

(** The hit points decide alike whatever happened to the fuel. *)
Lemma turn_change_health (u : Unit.unit) (v ins : Vertex.vertex) :
  Cost.moves_left (Vertex.cost v) <= 0 ->
  turn_change W u v = Some ins ->
  0 < Cost.health (Vertex.cost ins)
  /\ Cost.turns (Vertex.cost ins) = Cost.turns (Vertex.cost v) + 1
  /\ Vertex.moved ins = false
  /\ Vertex.location ins = Vertex.location v
  /\ Vertex.loaded ins = Vertex.loaded v
  /\ Vertex.parent ins = Vertex.parent v.
Proof.
  intros Hm. unfold turn_change.
  destruct (Z.leb_spec (Cost.moves_left (Vertex.cost v)) 0); [|lia].
  repeat match goal with
  | |- context [if ?c then _ else _] => destruct c eqn:?
  end; simpl; intros [= <-]; simpl; cost_bools; repeat split; first [done | lia].
Qed.

(** C5: at the change of turn of a unit type with fuel, a unit that is
    being refuelled gets the full capacity, a unit that is not and has at
    most one unit of fuel gives no vertex, any other unit loses exactly one
    unit of fuel; and whatever the fuel, no vertex comes out when the hit
    points after [unit_restore_hitpoints] are not positive.  Where no vertex
    comes out [maybe_insert_vertex] leaves the state as it is. *)
Theorem turn_change_fuel_and_health (u : Unit.unit) (v : Vertex.vertex) :
  Cost.moves_left (Vertex.cost v) <= 0 ->
  utype_fuel W (Unit.utype u) <> 0 ->
  let probe := Vertex.fill_probe v u in
  let capacity := utype_fuel W (Unit.utype u) in
  let fuel := Cost.fuel_left (Vertex.cost v) in
  let hp_after := fun fuel' =>
    Unit.hp (unit_restore_hitpoints W (Unit.set_fuel fuel' probe)) in
  (is_unit_being_refueled W probe = true ->
     (hp_after capacity <= 0 -> turn_change W u v = None)
     /\ (0 < hp_after capacity ->
         turn_change W u v = Some (next_turn W v u capacity (hp_after capacity))))
  /\ (is_unit_being_refueled W probe = false -> fuel <= 1 ->
      turn_change W u v = None)
  /\ (is_unit_being_refueled W probe = false -> 1 < fuel ->
      (hp_after (fuel - 1) <= 0 -> turn_change W u v = None)
      /\ (0 < hp_after (fuel - 1) ->
          turn_change W u v = Some (next_turn W v u (fuel - 1) (hp_after (fuel - 1)))))
  /\ (forall st : path_finder_private,
        unit st = u -> turn_change W u v = None -> maybe_insert_vertex W v st = st).
Proof.
  intros Hm Hfuel probe capacity fuel hp_after.
  assert (negb (utype_fuel W (Unit.utype probe) =? 0) = true) as Hf.
  { apply negb_true_iff, Z.eqb_neq. done. }
  assert ((Cost.moves_left (Vertex.cost v) <=? 0) = true) as Hm' by by apply Z.leb_le.
  split; [|split; [|split]].
  - intros Hr.
    split; intros Hhp; unfold turn_change; fold probe; rewrite Hm', Hf, Hr;
      unfold hp_after, capacity in Hhp;
      change (Unit.utype probe) with (Unit.utype u).
    + apply Z.leb_le in Hhp. by rewrite Hhp.
    + apply Z.leb_gt in Hhp. by rewrite Hhp.
  - intros Hr Hle. unfold turn_change. fold probe. rewrite Hm', Hf, Hr.
    apply Z.leb_le in Hle. unfold fuel in Hle. simpl. by rewrite Hle.
  - intros Hr Hgt. apply Z.leb_gt in Hgt. unfold fuel in Hgt.
    split; intros Hhp; unfold turn_change; fold probe; rewrite Hm', Hf, Hr;
      simpl; rewrite Hgt; unfold hp_after, fuel in Hhp; simpl in Hhp.
    + apply Z.leb_le in Hhp. by rewrite Hhp.
    + apply Z.leb_gt in Hhp. by rewrite Hhp.
  - intros st <- Hnone. unfold maybe_insert_vertex. by rewrite Hnone.
Qed.

End TurnChange.

(** An aircraft with one unit of fuel away from tile 0 gives no vertex. *)
Lemma turn_change_fuel_and_health_witness :
  turn_change air_world (walker 2) (aircraft_at 4 10 1) = None.
Proof.
  refine (proj1 (proj2 (turn_change_fuel_and_health air_world (walker 2)
                          (aircraft_at 4 10 1) _ _)) _ _);
    simpl; first [lia | done].
Defined.

Example turn_change_refuels :
  turn_change air_world (walker 2) (aircraft_at 0 10 1)
  = Some (Vertex.mk_vertex 0 None false (Cost.mk_cost 1 2 10 3) (Some O) Order.zero).
Proof. reflexivity. Qed.

Example turn_change_burns_fuel :
  turn_change air_world (walker 2) (aircraft_at 4 10 2)
  = Some (Vertex.mk_vertex 4 None false (Cost.mk_cost 1 2 10 1) (Some O) Order.zero).
Proof. reflexivity. Qed.

Example turn_change_no_health :
  turn_change air_world (walker 2) (aircraft_at 9 4 3) = None.
Proof. reflexivity. Qed.

(** ** Admission to the frontier *)

Section Scan.

Implicit Types (insert : Vertex.vertex) (range : list entry) (e : entry).

Lemma scan_sublist insert range : sublist (scan insert range).1 range.
Proof.
  induction range as [|it rest IH]; simpl; [done|].
  destruct (Vertex.comparable it.2 insert); simpl.
  - destruct (Cost.lt (Vertex.cost insert) (Vertex.cost it.2)); simpl.
    + by apply sublist_cons.
    + done.
  - destruct (scan insert rest) as [kept b]; simpl in *. by apply sublist_skip.
Qed.

Lemma scan_elem_of insert range e : e ∈ (scan insert range).1 -> e ∈ range.
Proof. intros He. eapply elem_of_sublist; [done|apply scan_sublist]. Qed.

(** With [do_insert] set, the loop ran to the end: what stays is not
    comparable with the new vertex, and what went was strictly worse. *)
Lemma scan_inserts insert range :
  (scan insert range).2 = true ->
  (forall e, e ∈ (scan insert range).1 -> Vertex.comparable e.2 insert = false)
  /\ (forall e, e ∈ range -> Vertex.comparable e.2 insert = true ->
        Cost.lt (Vertex.cost insert) (Vertex.cost e.2) = true
        /\ e ∉ (scan insert range).1).
Proof.
  induction range as [|it rest IH]; simpl.
  - intros _. split; intros e He; by apply elem_of_nil in He.
  - destruct (Vertex.comparable it.2 insert) eqn:Hc; simpl.
    + destruct (Cost.lt (Vertex.cost insert) (Vertex.cost it.2)) eqn:Hl; simpl;
        [|done].
      intros Hd. destruct (IH Hd) as [IH1 IH2]. split; [done|].
      intros e He Hce. apply elem_of_cons in He as [->|He]; [|by apply IH2].
      split; [done|]. intros Hin. apply IH1 in Hin. congruence.
    + destruct (scan insert rest) as [kept b] eqn:Hs; simpl in *.
      intros Hd. destruct (IH Hd) as [IH1 IH2]. split.
      * intros e He. apply elem_of_cons in He as [->|He]; [done|by apply IH1].
      * intros e He Hce. apply elem_of_cons in He as [->|He]; [congruence|].
        destruct (IH2 e He Hce) as [? Hnot]. split; [done|].
        intros Hin. apply elem_of_cons in Hin as [->|Hin]; [congruence|done].
Qed.

(** With [do_insert] cleared, the loop stopped at an entry that is
    comparable with the new vertex and not strictly worse; it stays. *)
Lemma scan_discards insert range :
  (scan insert range).2 = false ->
  exists e, e ∈ (scan insert range).1
            /\ Vertex.comparable e.2 insert = true
            /\ Cost.lt (Vertex.cost insert) (Vertex.cost e.2) = false.
Proof.
  induction range as [|it rest IH]; simpl; [done|].
  destruct (Vertex.comparable it.2 insert) eqn:Hc; simpl.
  - destruct (Cost.lt (Vertex.cost insert) (Vertex.cost it.2)) eqn:Hl; simpl.
    + done.
    + intros _. exists it. split; [apply elem_of_cons; by left|done].
  - destruct (scan insert rest) as [kept b] eqn:Hs; simpl in *.
    intros Hd. destruct (IH Hd) as (e & He & ?). exists e.
    split; [apply elem_of_cons; by right|done].
Qed.

(** An entry that is comparable with the new vertex and not strictly
    worse makes the loop stop. *)
Lemma scan_stops insert range e :
  e ∈ range -> Vertex.comparable e.2 insert = true ->
  Cost.lt (Vertex.cost insert) (Vertex.cost e.2) = false ->
  (scan insert range).2 = false.
Proof.
  intros He Hc Hl. destruct ((scan insert range).2) eqn:Hd; [|done].
  destruct (proj2 (scan_inserts insert range Hd) e He Hc). congruence.
Qed.

(** The range never becomes empty without an insertion. *)
Lemma scan_not_empty insert range :
  (scan insert range).2 = false -> (scan insert range).1 <> [].
Proof.
  intros Hd. destruct (scan_discards insert range Hd) as (e & He & _).
  intros Hnil. rewrite Hnil in He. by apply elem_of_nil in He.
Qed.

End Scan.

(** Sublists and the two properties of a range. *)
Lemma sublist_lookup_pair {A} (l k : list A) i j a b :
  sublist l k -> i <> j -> l !! i = Some a -> l !! j = Some b ->
  exists i' j', i' <> j' /\ k !! i' = Some a /\ k !! j' = Some b.
Proof.
  intros Hsub. revert i j. induction Hsub as [|x l k Hs IH|x l k Hs IH]; intros i j Hne Hi Hj.
  - done.
  - destruct i as [|i], j as [|j]; simpl in *; [done| | |].
    + assert (b ∈ k) as Hb by (eapply elem_of_sublist; [by eapply list_elem_of_lookup_2|done]).
      apply list_elem_of_lookup in Hb as [j' Hj']. exists O, (S j'). done.
    + assert (a ∈ k) as Ha by (eapply elem_of_sublist; [by eapply list_elem_of_lookup_2|done]).
      apply list_elem_of_lookup in Ha as [i' Hi']. exists (S i'), O. done.
    + destruct (IH i j) as (i' & j' & ? & ? & ?); [lia|done|done|].
      exists (S i'), (S j'). split; [lia|done].
  - destruct (IH i j) as (i' & j' & ? & ? & ?); [done..|].
    exists (S i'), (S j'). split; [lia|done].
Qed.

Lemma no_strictly_better_sublist l k :
  sublist l k -> no_strictly_better k -> no_strictly_better l.
Proof.
  intros Hsub Hk i j a b Hne Hi Hj Hc.
  destruct (sublist_lookup_pair l k i j a b Hsub Hne Hi Hj) as (i' & j' & ? & ? & ?).
  by eapply Hk.
Qed.

Lemma pairwise_incomparable_sublist l k :
  sublist l k -> pairwise_incomparable k -> pairwise_incomparable l.
Proof.
  intros Hsub Hk i j a b Hne Hi Hj.
  destruct (sublist_lookup_pair l k i j a b Hsub Hne Hi Hj) as (i' & j' & ? & ? & ?).
  by eapply Hk.
Qed.

(** Adding an entry that is comparable with none of the range. *)
Lemma pairwise_incomparable_snoc l (e : entry) :
  pairwise_incomparable l ->
  (forall a, a ∈ l -> Vertex.comparable a.2 e.2 = false) ->
  pairwise_incomparable (l ++ [e]).
Proof.
  intros Hl He i j a b Hne Hi Hj.
  destruct (decide (i < length l)%nat) as [Hil|Hil];
    destruct (decide (j < length l)%nat) as [Hjl|Hjl].
  - rewrite lookup_app_l in Hi, Hj by done. by eapply Hl.
  - rewrite lookup_app_l in Hi by done. rewrite lookup_app_r in Hj by lia.
    apply list_lookup_singleton_Some in Hj as [_ <-].
    apply He. by eapply list_elem_of_lookup_2.
  - rewrite lookup_app_l in Hj by done. rewrite lookup_app_r in Hi by lia.
    apply list_lookup_singleton_Some in Hi as [_ <-].
    rewrite vertex_comparable_sym. apply He. by eapply list_elem_of_lookup_2.
  - rewrite lookup_app_r in Hi, Hj by lia.
    apply list_lookup_singleton_Some in Hi as [Hi _].
    apply list_lookup_singleton_Some in Hj as [Hj _]. lia.
Qed.

Lemma no_strictly_better_snoc l (e : entry) :
  no_strictly_better l ->
  (forall a, a ∈ l -> Vertex.comparable a.2 e.2 = false) ->
  no_strictly_better (l ++ [e]).
Proof.
  intros Hl He i j a b Hne Hi Hj Hc.
  destruct (decide (i < length l)%nat) as [Hil|Hil];
    destruct (decide (j < length l)%nat) as [Hjl|Hjl].
  - rewrite lookup_app_l in Hi, Hj by done. by eapply Hl.
  - rewrite lookup_app_l in Hi by done. rewrite lookup_app_r in Hj by lia.
    apply list_lookup_singleton_Some in Hj as [_ <-].
    rewrite He in Hc; [done|]. by eapply list_elem_of_lookup_2.
  - rewrite lookup_app_l in Hj by done. rewrite lookup_app_r in Hi by lia.
    apply list_lookup_singleton_Some in Hi as [_ <-].
    rewrite vertex_comparable_sym, He in Hc; [done|]. by eapply list_elem_of_lookup_2.
  - rewrite lookup_app_r in Hi, Hj by lia.
    apply list_lookup_singleton_Some in Hi as [Hi _].
    apply list_lookup_singleton_Some in Hj as [Hj _]. lia.
Qed.

Lemma bucket_insert k (b : list entry) (bv : gmap Z (list entry)) :
  bucket k (<[k := b]> bv) = b.
Proof. unfold bucket. by rewrite lookup_insert_eq. Qed.

Lemma bucket_insert_ne k k' (b : list entry) (bv : gmap Z (list entry)) :
  k <> k' -> bucket k' (<[k := b]> bv) = bucket k' bv.
Proof. intros Hne. unfold bucket. by rewrite lookup_insert_ne. Qed.

Section Admission.

Context (W : world).

(** What [maybe_insert_vertex] does once the change of turn gave the
    vertex [insert]. *)
Lemma maybe_insert_vertex_result v st insert :
  turn_change W (unit st) v = Some insert ->
  let s := scan insert (bucket (Vertex.location v) (best_vertices st)) in
  maybe_insert_vertex W v st =
  if s.2 then
    {| unit := unit st;
       best_vertices :=
         <[Vertex.location v := s.1 ++ [(next_address st, insert)]]> (best_vertices st);
       queue := push insert (queue st);
       next_address := S (next_address st) |}
  else
    {| unit := unit st;
       best_vertices := <[Vertex.location v := s.1]> (best_vertices st);
       queue := queue st;
       next_address := next_address st |}.
Proof.
  intros Ht. unfold maybe_insert_vertex. rewrite Ht. simpl.
  by destruct (scan insert (bucket (Vertex.location v) (best_vertices st))) as [kept []].
Qed.

(** The entries at the tile of the new vertex afterwards. *)
Lemma maybe_insert_vertex_range v st insert :
  turn_change W (unit st) v = Some insert ->
  let s := scan insert (bucket (Vertex.location v) (best_vertices st)) in
  bucket (Vertex.location v) (best_vertices (maybe_insert_vertex W v st))
  = if s.2 then s.1 ++ [(next_address st, insert)] else s.1.
Proof.
  intros Ht s. rewrite (maybe_insert_vertex_result v st insert Ht). fold s.
  destruct (s.2); simpl; apply bucket_insert.
Qed.

(** The entries at the other tiles stay. *)
Lemma maybe_insert_vertex_elsewhere v st k :
  k <> Vertex.location v ->
  bucket k (best_vertices (maybe_insert_vertex W v st)) = bucket k (best_vertices st).
Proof.
  intros Hne. unfold maybe_insert_vertex.
  destruct (turn_change W (unit st) v) as [insert|]; [|done].
  destruct (scan insert (bucket (Vertex.location v) (best_vertices st))) as [kept []];
    simpl; by apply bucket_insert_ne.
Qed.

Lemma maybe_insert_vertex_unit v st : unit (maybe_insert_vertex W v st) = unit st.
Proof.
  unfold maybe_insert_vertex.
  destruct (turn_change W (unit st) v) as [insert|]; [|done].
  by destruct (scan insert (bucket (Vertex.location v) (best_vertices st))) as [kept []].
Qed.

(** Two entries of a range without a strictly better neighbour, one
    that is at least as good as a vertex and one that the vertex strictly
    improves on, cannot both be there. *)
Lemma no_strictly_better_squeeze range insert (e1 e2 : entry) :
  no_strictly_better range ->
  e1 ∈ range -> e2 ∈ range ->
  Vertex.comparable e2.2 insert = true ->
  Cost.lt (Vertex.cost insert) (Vertex.cost e2.2) = false ->
  Vertex.comparable e1.2 insert = true ->
  Cost.lt (Vertex.cost insert) (Vertex.cost e1.2) = true ->
  False.
Proof.
  intros Hok H1 H2 Hc2 Hl2 Hc1 Hl1.
  apply list_elem_of_lookup in H1 as [i Hi], H2 as [j Hj].
  assert (j <> i) as Hne.
  { intros ->. rewrite Hi in Hj. injection Hj as ->. congruence. }
  assert (Vertex.comparable e2.2 e1.2 = true
          /\ Cost.lt (Vertex.cost e2.2) (Vertex.cost e1.2) = true) as [Hc Hl].
  { apply vertex_comparable_spec in Hc1 as (? & ? & ? & Hc1).
    apply vertex_comparable_spec in Hc2 as (? & ? & ? & Hc2).
    rewrite vertex_comparable_spec.
    rewrite comparable_sym in Hc1, Hc2.
    pose proof (comparable_lt_dominates _ _ Hc1 Hl1) as Hd1.
    pose proof (comparable_not_lt_dominates _ _ Hc2 Hl2) as Hd2.
    apply lt_spec in Hl1. apply lt_false_spec in Hl2.
    rewrite comparable_spec, lt_spec.
    unfold Cost.dominates, Cost.lex_less in *.
    repeat split; [congruence..| |]; lia. }
  specialize (Hok j i e2 e1 Hne Hj Hi Hc). congruence.
Qed.

Lemma pairwise_incomparable_no_strictly_better range :
  pairwise_incomparable range -> no_strictly_better range.
Proof.
  intros Hinc i j a b Hne Hi Hj Hc. rewrite (Hinc i j a b Hne Hi Hj) in Hc. done.
Qed.

(** The two properties of the range at the tile of the candidate pass
    through [maybe_insert_vertex]. *)
Lemma maybe_insert_vertex_no_strictly_better v st :
  no_strictly_better (bucket (Vertex.location v) (best_vertices st)) ->
  no_strictly_better
    (bucket (Vertex.location v) (best_vertices (maybe_insert_vertex W v st))).
Proof.
  intros Hok. unfold maybe_insert_vertex.
  destruct (turn_change W (unit st) v) as [insert|] eqn:Ht; [|done].
  set (range := bucket (Vertex.location v) (best_vertices st)) in *.
  pose proof (scan_sublist insert range) as Hsub.
  destruct (scan insert range) as [kept d] eqn:Hs. simpl in Hsub.
  destruct d; simpl; rewrite bucket_insert.
  - apply no_strictly_better_snoc; [by eapply no_strictly_better_sublist|].
    intros a Ha. apply (proj1 (scan_inserts insert range ltac:(by rewrite Hs))).
    by rewrite Hs.
  - by eapply no_strictly_better_sublist.
Qed.

Lemma maybe_insert_vertex_pairwise_incomparable v st :
  pairwise_incomparable (bucket (Vertex.location v) (best_vertices st)) ->
  pairwise_incomparable
    (bucket (Vertex.location v) (best_vertices (maybe_insert_vertex W v st))).
Proof.
  intros Hinc. unfold maybe_insert_vertex.
  destruct (turn_change W (unit st) v) as [insert|] eqn:Ht; [|done].
  set (range := bucket (Vertex.location v) (best_vertices st)) in *.
  pose proof (scan_sublist insert range) as Hsub.
  destruct (scan insert range) as [kept d] eqn:Hs. simpl in Hsub.
  destruct d; simpl; rewrite bucket_insert.
  - apply pairwise_incomparable_snoc; [by eapply pairwise_incomparable_sublist|].
    intros a Ha. apply (proj1 (scan_inserts insert range ltac:(by rewrite Hs))).
    by rewrite Hs.
  - by eapply pairwise_incomparable_sublist.
Qed.

(** The two forms of the invariant say the same: comparable costs are
    those of which one is at least as good as the other in all four
    criteria, so entries without such a pair are entries that are not
    comparable. *)
Lemma non_dominated_incomparable range :
  non_dominated range <-> pairwise_incomparable range.
Proof.
  split.
  - intros Hnd i j a b Hne Hi Hj.
    destruct (Vertex.comparable a.2 b.2) eqn:Hc; [|done]. exfalso.
    pose proof Hc as (_ & _ & _ & Hcost)%vertex_comparable_spec.
    apply comparable_spec in Hcost as [Hd|Hd].
    + apply (Hnd j i b a); [done..| |done]. by rewrite vertex_comparable_sym.
    + by apply (Hnd i j a b).
  - intros Hinc i j a b Hne Hi Hj Hc. rewrite (Hinc i j a b Hne Hi Hj) in Hc. done.
Qed.

(** Two comparable entries after [maybe_insert_vertex] were both there
    before: the new entry is comparable with none of those that stay. *)
Lemma maybe_insert_vertex_comparable_pair v st (i j : nat) (a b : entry) :
  let range := bucket (Vertex.location v) (best_vertices st) in
  let range' := bucket (Vertex.location v) (best_vertices (maybe_insert_vertex W v st)) in
  i <> j -> range' !! i = Some a -> range' !! j = Some b ->
  Vertex.comparable a.2 b.2 = true ->
  exists i0 j0 : nat, i0 <> j0 /\ range !! i0 = Some a /\ range !! j0 = Some b.
Proof.
  intros range range' Hne Hi Hj Hc. subst range'.
  destruct (turn_change W (unit st) v) as [insert|] eqn:Ht.
  - rewrite (maybe_insert_vertex_range v st insert Ht) in Hi, Hj. fold range in Hi, Hj.
    pose proof (scan_sublist insert range) as Hsub.
    destruct ((scan insert range).2) eqn:Hd;
      [|by apply (sublist_lookup_pair _ _ i j a b Hsub)].
    pose proof (proj1 (scan_inserts insert range Hd)) as Hnew.
    set (kept := (scan insert range).1) in *.
    destruct (decide (i < length kept)%nat) as [Hil|Hil];
      destruct (decide (j < length kept)%nat) as [Hjl|Hjl].
    + rewrite lookup_app_l in Hi, Hj by done.
      by apply (sublist_lookup_pair _ _ i j a b Hsub).
    + rewrite lookup_app_l in Hi by done. rewrite lookup_app_r in Hj by lia.
      apply list_lookup_singleton_Some in Hj as [_ <-]. simpl in Hc.
      rewrite (Hnew a) in Hc; [done|]. by eapply list_elem_of_lookup_2.
    + rewrite lookup_app_l in Hj by done. rewrite lookup_app_r in Hi by lia.
      apply list_lookup_singleton_Some in Hi as [_ <-]. simpl in Hc.
      rewrite vertex_comparable_sym, (Hnew b) in Hc; [done|].
      by eapply list_elem_of_lookup_2.
    + rewrite lookup_app_r in Hi, Hj by lia.
      apply list_lookup_singleton_Some in Hi as [Hi _].
      apply list_lookup_singleton_Some in Hj as [Hj _]. lia.
  - unfold maybe_insert_vertex in Hi, Hj. rewrite Ht in Hi, Hj. by exists i, j.
Qed.

(** C4: admission keeps the invariant of the frontier.  From a range at
    the tile of the candidate in which no entry is strictly better than a
    comparable one, [maybe_insert_vertex] leaves such a range; in it two
    comparable entries of which one is at least as good as the other in all
    four criteria have the same cost.  The call makes no comparable pair:
    two comparable entries found afterwards are two entries of equal cost
    that were in the range before, since the admitted vertex is comparable
    with no entry that stays.  So a range without comparable entries stays
    without, and a range in which no entry is at least as good as a
    comparable one in all four criteria stays so.  A candidate that is
    comparable with an entry and not strictly better than it is discarded
    (the queue and the addresses are as before and the range did not grow),
    and every entry that the candidate is comparable with and strictly
    better than is gone. *)
Theorem maybe_insert_vertex_keeps_frontier (v : Vertex.vertex) (st : path_finder_private) :
  let range := bucket (Vertex.location v) (best_vertices st) in
  let st' := maybe_insert_vertex W v st in
  let range' := bucket (Vertex.location v) (best_vertices st') in
  no_strictly_better range ->
  no_strictly_better range'
  /\ (forall a b : entry,
        a ∈ range' -> b ∈ range' ->
        Vertex.comparable a.2 b.2 = true ->
        Cost.dominates (Vertex.cost a.2) (Vertex.cost b.2) ->
        Vertex.cost a.2 = Vertex.cost b.2)
  /\ (forall (i j : nat) (a b : entry),
        i <> j -> range' !! i = Some a -> range' !! j = Some b ->
        Vertex.comparable a.2 b.2 = true ->
        Vertex.cost a.2 = Vertex.cost b.2
        /\ exists i0 j0 : nat,
             i0 <> j0 /\ range !! i0 = Some a /\ range !! j0 = Some b)
  /\ (pairwise_incomparable range -> pairwise_incomparable range')
  /\ (non_dominated range -> non_dominated range')
  /\ (forall insert : Vertex.vertex,
        turn_change W (unit st) v = Some insert ->
        forall e : entry,
          e ∈ range -> Vertex.comparable e.2 insert = true ->
          (Cost.lt (Vertex.cost insert) (Vertex.cost e.2) = false ->
             queue st' = queue st /\ next_address st' = next_address st
             /\ sublist range' range)
          /\ (Cost.lt (Vertex.cost insert) (Vertex.cost e.2) = true ->
              e ∉ range')).
Proof.
  intros range st' range' Hok.
  assert (no_strictly_better range') as Hok'
    by by apply maybe_insert_vertex_no_strictly_better.
  split; [done|]. split; [|split; [|split; [|split]]].
  - intros a b Ha Hb Hc Hd.
    apply list_elem_of_lookup in Ha as [i Hi], Hb as [j Hj].
    destruct (decide (i = j)) as [->|Hne]; [congruence|].
    specialize (Hok' i j a b Hne Hi Hj Hc). apply lt_false_spec in Hok'.
    destruct (decide (Vertex.cost a.2 = Vertex.cost b.2)) as [|Hcost]; [done|].
    apply lex_less_total in Hcost.
    unfold Cost.dominates, Cost.lex_less in *. lia.
  - intros i j a b Hne Hi Hj Hc.
    split; [|by apply (maybe_insert_vertex_comparable_pair v st i j a b)].
    pose proof (Hok' i j a b Hne Hi Hj Hc) as Hab.
    rewrite vertex_comparable_sym in Hc.
    pose proof (Hok' j i b a (not_eq_sym Hne) Hj Hi Hc) as Hba.
    apply lt_false_spec in Hab, Hba.
    destruct (decide (Vertex.cost a.2 = Vertex.cost b.2)) as [|Hcost]; [done|].
    apply lex_less_total in Hcost. tauto.
  - apply maybe_insert_vertex_pairwise_incomparable.
  - rewrite !non_dominated_incomparable.
    apply maybe_insert_vertex_pairwise_incomparable.
  - intros insert Ht e He Hc.
    pose proof (maybe_insert_vertex_result v st insert Ht) as Hst.
    pose proof (maybe_insert_vertex_range v st insert Ht) as Hrange.
    simpl in Hst, Hrange. fold range st' in Hst, Hrange. fold range' in Hrange.
    split.
    + intros Hl. pose proof (scan_stops insert range e He Hc Hl) as Hd.
      rewrite Hd in Hst, Hrange. rewrite Hst, Hrange. simpl.
      repeat split. apply scan_sublist.
    + intros Hl. rewrite Hrange.
      destruct ((scan insert range).2) eqn:Hd.
      * destruct (proj2 (scan_inserts insert range Hd) e He Hc) as [_ Hnot].
        intros Hin. apply elem_of_app in Hin as [Hin|Hin]; [done|].
        apply list_elem_of_singleton in Hin. subst e. simpl in Hl.
        apply lt_spec in Hl. by apply lex_less_irrefl in Hl.
      * destruct (scan_discards insert range Hd) as (e2 & He2 & Hc2 & Hl2).
        apply scan_elem_of in He2.
        exfalso. by eapply (no_strictly_better_squeeze range insert e e2).
Qed.

End Admission.

(** The admission on [detour_searching]: the wait on tile 3 is the vertex
    at address 6, and the first vertex that [attempt_move] makes from it is
    [detour_shortcut]. *)
Example detour_shortcut_candidate :
  deref 6%nat (best_vertices detour_searching)
  = Some (Vertex.mk_vertex 3 None false (Cost.mk_cost 1 5 10 0) (Some 3%nat)
            (Order.mk_order ORDER_FULL_MP None 0 (DIR8 2)))
  /\ (v ← deref 6%nat (best_vertices detour_searching);
      head (move_events detour (unit detour_searching) 6%nat v))
     = Some (Candidate detour_shortcut).
Proof. split; vm_compute; reflexivity. Qed.

(** The entries at tile 1 before and after: the arrival of the second
    turn with two fragments gives way to the one with four, the two other
    entries stay, and the new vertex joins the queue. *)
Example detour_shortcut_admitted :
  let st' := maybe_insert_vertex detour detour_shortcut detour_searching in
  map (fun e : entry => (e.1, Vertex.moved e.2, Vertex.cost e.2))
      (bucket 1 (best_vertices detour_searching))
  = [(1%nat, false, Cost.mk_cost 1 5 10 0); (5%nat, true, Cost.mk_cost 0 1 10 0);
     (8%nat, true, Cost.mk_cost 1 2 10 0)]
  /\ map (fun e : entry => (e.1, Vertex.moved e.2, Vertex.cost e.2))
         (bucket 1 (best_vertices st'))
     = [(1%nat, false, Cost.mk_cost 1 5 10 0); (5%nat, true, Cost.mk_cost 0 1 10 0);
        (11%nat, true, Cost.mk_cost 1 4 10 0)]
  /\ queue st' = push detour_shortcut (queue detour_searching)
  /\ next_address st' = S (next_address detour_searching).
Proof.
  cbv zeta. split; [vm_compute; reflexivity|]. split; [vm_compute; reflexivity|].
  split; vm_compute; reflexivity.
Qed.

Lemma detour_searching_non_dominated :
  non_dominated (bucket 1 (best_vertices detour_searching)).
Proof.
  apply non_dominated_incomparable. intros i j a b Hne Hi Hj.
  vm_compute in Hi, Hj.
  destruct i as [|[|[|i]]], j as [|[|[|j]]]; simpl in Hi, Hj; try done;
    injection Hi as <-; injection Hj as <-; reflexivity.
Qed.

(** The theorem at this admission.  No entry of the three at tile 1 is
    strictly better than a comparable one (the two arrivals are not
    comparable: one is a turn earlier, the other has more fragments left);
    afterwards the same holds of the three entries there, none of them is
    at least as good as a comparable one in all four criteria, and the
    entry at address 8, which the new vertex is comparable with and
    strictly better than, is gone. *)
Lemma maybe_insert_vertex_keeps_frontier_witness :
  let range := bucket 1 (best_vertices detour_searching) in
  let range' :=
    bucket 1 (best_vertices
                (maybe_insert_vertex detour detour_shortcut detour_searching)) in
  no_strictly_better range
  /\ no_strictly_better range'
  /\ non_dominated range'
  /\ exists e : entry,
       range !! 2%nat = Some e /\ e.1 = 8%nat
       /\ Vertex.comparable e.2 detour_shortcut = true
       /\ Cost.lt (Vertex.cost detour_shortcut) (Vertex.cost e.2) = true
       /\ e ∉ range'.
Proof.
  cbv zeta.
  assert (no_strictly_better (bucket 1 (best_vertices detour_searching))) as Hpre.
  { apply pairwise_incomparable_no_strictly_better, non_dominated_incomparable,
      detour_searching_non_dominated. }
  destruct (maybe_insert_vertex_keeps_frontier detour detour_shortcut detour_searching
              Hpre) as (Hpost & _ & _ & _ & Hnd & Hcases).
  split; [exact Hpre|]. split; [exact Hpost|].
  split; [exact (Hnd detour_searching_non_dominated)|].
  exists detour_direct.
  split; [vm_compute; reflexivity|]. split; [reflexivity|].
  split; [reflexivity|]. split; [reflexivity|].
  refine (proj2 (Hcases detour_shortcut eq_refl detour_direct _ eq_refl) eq_refl).
  vm_compute. apply list_elem_of_further, list_elem_of_further, list_elem_of_here.
Defined.

(** ** Turns along the edges *)

Section Edges.

Context (W : world).

Lemma turn_change_turns (u : Unit.unit) (v ins : Vertex.vertex) :
  turn_change W u v = Some ins ->
  Vertex.parent ins = Vertex.parent v
  /\ Vertex.location ins = Vertex.location v
  /\ Cost.turns (Vertex.cost ins)
     = if Cost.moves_left (Vertex.cost v) <=? 0
       then Cost.turns (Vertex.cost v) + 1 else Cost.turns (Vertex.cost v).
Proof.
  intros Ht. destruct (Z.leb_spec (Cost.moves_left (Vertex.cost v)) 0) as [Hm|Hm].
  - destruct (turn_change_health W u v ins Hm Ht) as (_ & ? & _ & ? & _ & ?). done.
  - rewrite turn_change_moves_left in Ht by done. by injection Ht as <-.
Qed.

(** Every vertex that a rule makes from a source has the source as its
    parent and the turns of the source. *)
Lemma rule_candidate (r : rule) (u : Unit.unit) (self : address)
    (source next : Vertex.vertex) :
  Candidate next ∈ rule_events W r u self source ->
  Vertex.parent next = Some self
  /\ Cost.turns (Vertex.cost next) = Cost.turns (Vertex.cost source).
Proof.
  destruct r; simpl.
  - unfold move_events. case_bool_decide; [|by intros ?%elem_of_nil].
    rewrite list_elem_of_In, in_flat_map. intros ([target dir] & _ & Hin).
    destruct (terrain_known W target); simpl in Hin; [|done].
    destruct (unit_can_move_to_tile W _ target); simpl in Hin; [|done].
    destruct Hin as [[= <-]|[]]. done.
  - unfold full_mp_events. intros Hin%list_elem_of_singleton.
    injection Hin as ->. done.
  - unfold load_events. rewrite elem_of_app. intros [Hin|Hin].
    + destruct (transporter_for_unit W _) as [transport|]; [|by apply elem_of_nil in Hin].
      destruct (is_action_enabled_unit_on_unit W _ _ _);
        [|by apply elem_of_nil in Hin].
      apply list_elem_of_singleton in Hin. injection Hin as ->. done.
    + rewrite list_elem_of_In, in_flat_map in Hin. destruct Hin as (target & _ & Hin).
      destruct (transporter_for_unit W _) as [transport|].
      * destruct (is_action_enabled_unit_on_unit W _ _ _).
        -- destruct Hin as [[= <-]|[]]. done.
        -- destruct Hin as [|[]]; done.
      * destruct Hin as [|[]]; done.
  - unfold unload_events.
    destruct (Unit.transporter _) as [transporter|]; [|by intros ?%elem_of_nil].
    rewrite elem_of_app. intros [Hin|Hin].
    + destruct (is_action_enabled_unit_on_unit W _ _ _);
        [|by apply elem_of_nil in Hin].
      apply list_elem_of_singleton in Hin. injection Hin as ->. done.
    + rewrite list_elem_of_In, in_flat_map in Hin. destruct Hin as (target & _ & Hin).
      apply in_app_or in Hin as [Hin|Hin].
      * destruct (is_action_enabled_unit_on_tile W _ _ _); [|done].
        destruct Hin as [[= <-]|[]]. done.
      * destruct (is_action_enabled_unit_on_tile W ACTION_TRANSPORT_DISEMBARK2 _ _);
          [|done].
        destruct Hin as [[= <-]|[]]. done.
Qed.

(** An entry of the frontier after [maybe_insert_vertex] was there
    before or is the vertex that the change of turn gave, at the tile of
    the candidate and under a new address. *)
Lemma maybe_insert_vertex_entry v st k (e : entry) :
  e ∈ bucket k (best_vertices (maybe_insert_vertex W v st)) ->
  e ∈ bucket k (best_vertices st)
  \/ (k = Vertex.location v /\ e.1 = next_address st
      /\ turn_change W (unit st) v = Some e.2).
Proof.
  destruct (decide (k = Vertex.location v)) as [->|Hne];
    [|rewrite maybe_insert_vertex_elsewhere by done; by left].
  destruct (turn_change W (unit st) v) as [insert|] eqn:Ht.
  - rewrite (maybe_insert_vertex_range W v st insert Ht).
    destruct ((scan insert _).2).
    + rewrite elem_of_app. intros [Hin|Hin%list_elem_of_singleton].
      * left. by eapply scan_elem_of.
      * right. subst e. done.
    + intros Hin. left. by eapply scan_elem_of.
  - unfold maybe_insert_vertex. rewrite Ht. by left.
Qed.

(** The same along the turns of a rule. *)
Lemma run_events_entry self evs st st' k (e : entry) :
  run_events W self evs st = Done st' ->
  e ∈ bucket k (best_vertices st') ->
  e ∈ bucket k (best_vertices st)
  \/ exists next, Candidate next ∈ evs /\ turn_change W (unit st) next = Some e.2.
Proof.
  revert st. induction evs as [|ev evs IH]; intros st; simpl.
  - intros [= <-]. by left.
  - destruct (deref self (best_vertices st)); [|done].
    intros Hrun Hin. destruct (IH _ Hrun Hin) as [Hold|(next & Hnext & Ht)].
    + destruct ev as [|next]; [by left|].
      apply maybe_insert_vertex_entry in Hold as [Hold|(_ & _ & Ht)]; [by left|].
      right. exists next. split; [apply elem_of_cons; by left|done].
    + right. exists next. split; [apply elem_of_cons; by right|].
      destruct ev as [|next']; [done|].
      by rewrite maybe_insert_vertex_unit in Ht.
Qed.

(** C6: turns never decrease along an edge.  After any of the four rules
    ran on the vertex [source] stored at [self], an entry of the frontier
    that was not there before has [self] as its parent and comes from a
    candidate of the rule with the turns of [source]: it has one turn more
    when the candidate had no moves left (the change of turn), and the same
    turns otherwise. *)
Theorem turns_monotonic_along_edges (r : rule) (self : address)
    (source : Vertex.vertex) (st st' : path_finder_private) :
  deref self (best_vertices st) = Some source ->
  apply_rule W r self st = Done st' ->
  forall (k : tile) (child : entry),
    child ∈ bucket k (best_vertices st') ->
    child ∉ bucket k (best_vertices st) ->
    Vertex.parent child.2 = Some self
    /\ Cost.turns (Vertex.cost source) <= Cost.turns (Vertex.cost child.2)
    /\ exists next : Vertex.vertex,
         Candidate next ∈ rule_events W r (unit st) self source
         /\ Cost.turns (Vertex.cost next) = Cost.turns (Vertex.cost source)
         /\ turn_change W (unit st) next = Some child.2
         /\ Cost.turns (Vertex.cost child.2)
            = if Cost.moves_left (Vertex.cost next) <=? 0
              then Cost.turns (Vertex.cost source) + 1
              else Cost.turns (Vertex.cost source).
Proof.
  intros Hsrc Hrule k child Hin Hnew.
  assert (run_events W self (rule_events W r (unit st) self source) st = Done st')
    as Hrun.
  { destruct r; simpl in Hrule;
      unfold attempt_move, attempt_full_mp, attempt_load, attempt_unload, attempt in Hrule;
      by rewrite Hsrc in Hrule. }
  destruct (run_events_entry _ _ _ _ _ _ Hrun Hin) as [|(next & Hnext & Ht)]; [done|].
  destruct (rule_candidate r _ _ _ _ Hnext) as [Hp Hturns].
  destruct (turn_change_turns _ _ _ Ht) as (Hp' & _ & Hturns').
  rewrite Hturns in Hturns'.
  split; [congruence|]. split.
  - rewrite Hturns'. destruct (_ <=? 0); lia.
  - exists next. done.
Qed.

End Edges.

(** From the start on tile 0 of [two_tiles], the move to tile 1 ends the
    turn: the child of the root has one turn more. *)
Lemma turns_monotonic_along_edges_witness :
  Cost.turns (Vertex.cost (root_vertex (walker 1))) <= 1.
Proof.
  refine (proj1 (proj2
    (turns_monotonic_along_edges two_tiles Move 0%nat (root_vertex (walker 1))
       (construct (walker 1))
       (state_of (construct (walker 1))
          (apply_rule two_tiles Move 0%nat (construct (walker 1))))
       _ _ 1
       (1%nat, Vertex.mk_vertex 1 None false (Cost.mk_cost 1 1 10 0) (Some 0%nat)
                 (Order.mk_order ORDER_MOVE None 0 (DIR8 4)))
       _ _))).
  - vm_compute. reflexivity.
  - vm_compute. reflexivity.
  - vm_compute. apply list_elem_of_here.
  - vm_compute. apply not_elem_of_nil.
Defined.

(** ** Notification of a change *)

(** C3 as the code has it: [unit_changed] discards the frontier and the
    queue and seeds both with one root vertex made from the unit that the
    path finder holds, under a new address; the unit it is notified of
    plays no part. *)
Theorem unit_changed_reseeds_from_held_unit :
  forall (changed : Unit.unit) (st : path_finder_private),
    let st' := unit_changed changed st in
    let root := root_vertex (unit st) in
    unit st' = unit st
    /\ queue st' = [root]
    /\ best_vertices st' = {[ Unit.tile (unit st) := [(next_address st, root)] ]}
    /\ (forall k : tile,
          bucket k (best_vertices st')
          = if decide (k = Unit.tile (unit st)) then [(next_address st, root)] else [])
    /\ (forall other : Unit.unit, unit_changed other st = st').
Proof.
  intros changed st st' root.
  split; [reflexivity|]. split; [reflexivity|]. split; [reflexivity|].
  split; [|reflexivity].
  intros k. subst st'. unfold unit_changed, insert_initial_vertex, bucket. simpl.
  rewrite lookup_empty. simpl.
  destruct (decide (k = Unit.tile (unit st))) as [->|Hne].
  - by rewrite lookup_insert_eq.
  - rewrite lookup_insert_ne by done. by rewrite lookup_empty.
Qed.

(** C3 as the claim has it fails: a path finder made for a unit on tile 0
    and notified of a unit on tile 2 with three moves left seeds the queue
    with the root of the unit on tile 0, which is not the root of the unit
    it was notified of. *)
Lemma unit_changed_ignores_notified_unit :
  let st := construct (walker 5) in
  let notified := Unit.set_tile 2 (walker 3) in
  queue (unit_changed notified st) = [root_vertex (walker 5)]
  /\ bucket 2 (best_vertices (unit_changed notified st)) = []
  /\ root_vertex (walker 5) <> root_vertex notified.
Proof. cbv zeta. split; [reflexivity|]. split; [reflexivity|]. discriminate. Qed.

(** ** The two slips of [run_search] on concrete searches *)

(** C9 (the code departs from it): on [two_tiles] a search for the
    unreachable tile 2 returns the empty path and leaves an empty queue and
    a vertex at tile 1; the next search, for tile 1, finds that vertex and
    reads the top of the empty queue. *)
Theorem second_search_reads_top_of_empty_queue :
  let st0 := construct (walker 1) in
  let st1 := state_after st0 (find_path two_tiles 3 (Some 2) st0) in
  find_path two_tiles 3 (Some 2) st0 = Done (mk_result false [], st1)
  /\ queue st1 = []
  /\ map fst (bucket 1 (best_vertices st1)) = [1%nat]
  /\ already_found 1 st1 = Undefined TopOfEmptyQueue
  /\ find_path two_tiles 3 (Some 1) st1 = Undefined TopOfEmptyQueue.
Proof.
  cbv zeta.
  split; [vm_compute; reflexivity|]. split; [vm_compute; reflexivity|].
  split; [vm_compute; reflexivity|]. split; vm_compute; reflexivity.
Qed.

(** C1 (the code departs from it): on [detour], after three turns of the
    loop the top of the queue is the vertex at tile 1 with two moves left,
    which the frontier has dropped for a better one: no entry at tile 1 is
    equal to it.  The fourth turn does not skip: [it] is the end of the
    range of tile 1, which is the first entry of tile 2 and not the end of
    the multimap, so the four rules run on the vertex at tile 2, which is
    still waiting in the queue, and its children enter the frontier. *)
Theorem stale_vertex_expands_next_tile :
  let st3 := state_of (construct (walker 5))
               (iterations detour 3 9 (construct (walker 5))) in
  let stale := Vertex.mk_vertex 1 None true (Cost.mk_cost 0 2 10 0) (Some 0%nat)
                 (Order.mk_order ORDER_MOVE None 0 (DIR8 0)) in
  let other := Vertex.mk_vertex 2 None true (Cost.mk_cost 0 1 10 0) (Some 0%nat)
                 (Order.mk_order ORDER_MOVE None 0 (DIR8 1)) in
  let st4 := state_of st3 (iterations detour 1 9 st3) in
  head (queue st3) = Some stale
  /\ Vertex.location stale <> 9
  /\ existsb (fun it : entry => Vertex.eq it.2 stale) (bucket 1 (best_vertices st3)) = false
  /\ current_best stale (best_vertices st3) = Some (2%nat, other)
  /\ iterate detour 9 st3 = Done (Expanded (2%nat, other) st4)
  /\ head (queue st4) = Some other
  /\ bucket 4 (best_vertices st3) = []
  /\ map (fun it : entry => (it.1, Vertex.parent it.2)) (bucket 4 (best_vertices st4))
     = [(7%nat, Some 2%nat)].
Proof.
  cbv zeta. split; [vm_compute; reflexivity|]. split; [discriminate|].
  split; [vm_compute; reflexivity|]. split; [vm_compute; reflexivity|].
  split; [vm_compute; reflexivity|]. split; [vm_compute; reflexivity|].
  split; vm_compute; reflexivity.
Qed.

(** ** The states of a path finder and the result of [find_path] *)

Lemma elem_of_push (v w : Vertex.vertex) (q : list Vertex.vertex) :
  w ∈ push v q <-> w = v \/ w ∈ q.
Proof.
  induction q as [|x q IH]; simpl.
  - rewrite list_elem_of_singleton. split; [by left|].
    intros [|?%elem_of_nil]; done.
  - destruct (Vertex.gt x v).
    + by rewrite elem_of_cons.
    + rewrite !elem_of_cons, IH. tauto.
Qed.

(** A property of the state that every insertion of a vertex with a
    parent keeps, and that the removal of the top of the queue keeps, holds
    along a search. *)
Section Preservation.

Context (W : world) (P : path_finder_private -> Prop).

Hypothesis P_insert :
  forall v st, Vertex.parent v <> None -> P st -> P (maybe_insert_vertex W v st).
Hypothesis P_pop : forall st, P st -> P (pop st).

Lemma preserved_run_events self evs st st' :
  (forall next, Candidate next ∈ evs -> Vertex.parent next <> None) ->
  P st -> run_events W self evs st = Done st' -> P st'.
Proof.
  revert st. induction evs as [|ev evs IH]; intros st Hevs HP; simpl.
  - by intros [= <-].
  - destruct (deref self (best_vertices st)); [|done].
    apply IH.
    + intros next Hin. apply Hevs, elem_of_cons. by right.
    + destruct ev as [|next]; [done|].
      apply P_insert; [|done]. apply Hevs, elem_of_cons. by left.
Qed.

Lemma preserved_apply_rule r self st st' :
  P st -> apply_rule W r self st = Done st' -> P st'.
Proof.
  intros HP Hrule.
  assert (exists source,
    run_events W self (rule_events W r (unit st) self source) st = Done st')
    as [source Hrun].
  { destruct r; simpl in Hrule;
      unfold attempt_move, attempt_full_mp, attempt_load, attempt_unload, attempt in Hrule;
      destruct (deref self (best_vertices st)) as [source|]; try done;
      by exists source. }
  eapply preserved_run_events; [|done..].
  intros next Hin. apply rule_candidate in Hin as [Hp _]. congruence.
Qed.

Lemma preserved_expand self st st' :
  P st -> expand W self st = Done st' -> P st'.
Proof.
  intros HP. unfold expand.
  destruct (attempt_move W self st) as [st1| |] eqn:H1; simpl; [|done..].
  apply (preserved_apply_rule Move) in H1; [|done].
  destruct (attempt_full_mp W self st1) as [st2| |] eqn:H2; simpl; [|done..].
  apply (preserved_apply_rule FullMp) in H2; [|done].
  destruct (attempt_load W self st2) as [st3| |] eqn:H3; simpl; [|done..].
  apply (preserved_apply_rule Load) in H3; [|done].
  by apply (preserved_apply_rule Unload).
Qed.

Lemma preserved_iterate d st it :
  P st -> iterate W d st = Done it ->
  match it with
  | Exhausted | Arrived => True
  | Skipped st' | Expanded _ st' => P st'
  end.
Proof.
  intros HP. unfold iterate. destruct (queue st) as [|v q]; [by intros [= <-]|].
  case_bool_decide; [by intros [= <-]|].
  destruct (current_best v (best_vertices (pop st))) as [parent|].
  - destruct (expand W parent.1 (pop st)) as [st1| |] eqn:He; simpl; [|done..].
    intros [= <-]. eapply preserved_expand; [|done]. by apply P_pop.
  - intros [= <-]. by apply P_pop.
Qed.

Lemma preserved_search_loop fuel d st found st' :
  P st -> search_loop W fuel d st = Done (found, st') -> P st'.
Proof.
  revert st. induction fuel as [|fuel IH]; intros st HP; simpl; [done|].
  destruct (iterate W d st) as [it| |] eqn:Hit; simpl; [|done..].
  pose proof (preserved_iterate d st it HP Hit) as Hstep.
  destruct it as [| |st1|parent st1]; try by intros [= <- <-].
  - by apply IH.
  - by apply IH.
Qed.

Lemma preserved_run_search fuel d st found st' :
  P st -> run_search W fuel d st = Done (found, st') -> P st'.
Proof.
  intros HP. unfold run_search.
  destruct (already_found d st) as [[]| |]; simpl; [|by apply preserved_search_loop|done..].
  by intros [= <- <-].
Qed.

Lemma preserved_find_path fuel destination st r st' :
  P st -> find_path W fuel destination st = Done (r, st') -> P st'.
Proof.
  intros HP. unfold find_path.
  destruct destination as [d|]; [|by intros [= _ <-]].
  destruct (Unit.stay (unit st)); [by intros [= _ <-]|].
  case_bool_decide; [by intros [= _ <-]|].
  destruct (run_search W fuel d st) as [[found st1]| |] eqn:Hs; simpl; [|done..].
  apply preserved_run_search in Hs; [|done].
  destruct found; [|by intros [= _ <-]].
  destruct (select_best _) as [best|]; [|done].
  destruct (build_steps _ _ _); simpl; [|done..]. by intros [= _ <-].
Qed.

(** With the seeding of the root it holds in every state of a path
    finder. *)
Hypothesis P_seed :
  forall (u : Unit.unit) (n : address),
    P (insert_initial_vertex
         {| unit := u; best_vertices := ∅; queue := []; next_address := n |}).

Lemma preserved_reachable st : reachable W st -> P st.
Proof.
  induction 1 as [u|changed st _ _|fuel destination st st' r _ IH Hf].
  - apply P_seed.
  - apply P_seed.
  - by eapply preserved_find_path.
Qed.

End Preservation.

Section Invariant.

Context (W : world).

Lemma well_formed_insert_initial_vertex (u : Unit.unit) (n : address) :
  well_formed (insert_initial_vertex
                 {| unit := u; best_vertices := ∅; queue := []; next_address := n |}).
Proof.
  unfold insert_initial_vertex, well_formed. simpl. split.
  - intros k e. destruct (decide (Unit.tile u = k)) as [<-|Hne]; [done|].
    rewrite bucket_insert_ne by done. unfold bucket. rewrite lookup_empty.
    by intros ?%elem_of_nil.
  - intros v ->%list_elem_of_singleton. simpl. rewrite bucket_insert.
    unfold bucket. rewrite lookup_empty. done.
Qed.

Lemma well_formed_maybe_insert_vertex v st :
  Vertex.parent v <> None -> well_formed st ->
  well_formed (maybe_insert_vertex W v st).
Proof.
  intros Hparent [Hroot Hqueue]. split.
  - intros k e Hin Hnone. rewrite maybe_insert_vertex_unit.
    apply maybe_insert_vertex_entry in Hin as [Hin|(_ & _ & Ht)]; [by eapply Hroot|].
    apply turn_change_turns in Ht as (Hp & _). congruence.
  - destruct (turn_change W (unit st) v) as [insert|] eqn:Ht;
      [|unfold maybe_insert_vertex; by rewrite Ht].
    pose proof (turn_change_turns W _ _ _ Ht) as (_ & Hloc & _).
    rewrite (maybe_insert_vertex_result W v st insert Ht).
    set (s := scan insert (bucket (Vertex.location v) (best_vertices st))).
    destruct (s.2) eqn:Hd; simpl; intros q Hq.
    + destruct (decide (Vertex.location v = Vertex.location q)) as [<-|Hne].
      * rewrite bucket_insert. by destruct (s.1).
      * rewrite bucket_insert_ne by done.
        apply elem_of_push in Hq as [->|Hq]; [congruence|by apply Hqueue].
    + destruct (decide (Vertex.location v = Vertex.location q)) as [<-|Hne].
      * rewrite bucket_insert. by apply scan_not_empty.
      * rewrite bucket_insert_ne by done. by apply Hqueue.
Qed.

Lemma well_formed_pop st : well_formed st -> well_formed (pop st).
Proof.
  intros [Hroot Hqueue]. split; [done|]. simpl. intros v Hv. apply Hqueue.
  destruct (queue st); [done|]. apply elem_of_cons. by right.
Qed.

Lemma reachable_well_formed st : reachable W st -> well_formed st.
Proof.
  apply preserved_reachable.
  - apply well_formed_maybe_insert_vertex.
  - apply well_formed_pop.
  - apply well_formed_insert_initial_vertex.
Qed.

(** The invariant of the frontier holds in every state of a path
    finder: no two entries at one tile are comparable. *)
Lemma reachable_frontier_incomparable st :
  reachable W st -> frontier_incomparable st.
Proof.
  apply preserved_reachable.
  - intros v st0 _ Hinc k.
    destruct (decide (k = Vertex.location v)) as [->|Hne].
    + by apply maybe_insert_vertex_pairwise_incomparable.
    + by rewrite maybe_insert_vertex_elsewhere.
  - done.
  - intros u n k i j a b Hne. unfold insert_initial_vertex. simpl.
    destruct (decide (Unit.tile u = k)) as [<-|Hk].
    + rewrite bucket_insert. unfold bucket. rewrite lookup_empty. simpl.
      intros Hi Hj. apply list_lookup_singleton_Some in Hi as [-> _].
      apply list_lookup_singleton_Some in Hj as [-> _]. done.
    + rewrite bucket_insert_ne by done. unfold bucket. rewrite lookup_empty.
      done.
Qed.


(** A search does not touch the unit. *)
Lemma run_search_unit fuel d st found st' :
  run_search W fuel d st = Done (found, st') -> unit st' = unit st.
Proof.
  apply (preserved_run_search W (fun s => unit s = unit st)); [| |done].
  - intros v s _ <-. apply maybe_insert_vertex_unit.
  - done.
Qed.

(** How the loop ends: on a vertex at the destination, or with an empty
    queue. *)
Lemma search_loop_result fuel d st found st' :
  search_loop W fuel d st = Done (found, st') ->
  if found then exists v, head (queue st') = Some v /\ Vertex.location v = d
  else queue st' = [].
Proof.
  revert st. induction fuel as [|fuel IH]; intros st; simpl; [done|].
  unfold iterate at 1. destruct (queue st) as [|v q] eqn:Hq; simpl.
  - intros [= <- <-]. done.
  - case_bool_decide as Hd.
    + intros [= <- <-]. exists v. by rewrite Hq.
    + destruct (current_best v _) as [parent|]; simpl.
      * destruct (expand W parent.1 _) as [st1| |]; simpl; [|done..].
        apply IH.
      * apply IH.
Qed.



End Invariant.

Lemma select_best_from (range : list entry) (acc : option Vertex.vertex) :
  let f := fun (best : option Vertex.vertex) (it : entry) =>
    match best with
    | None => Some it.2
    | Some b => if Cost.lt (Vertex.cost it.2) (Vertex.cost b) then Some it.2 else Some b
    end in
  match fold_left f range acc with
  | None => acc = None /\ range = []
  | Some best => acc = Some best \/ exists it, it ∈ range /\ it.2 = best
  end.
Proof.
  intros f. revert acc. induction range as [|it range IH]; intros acc; simpl.
  - destruct acc; [by left|done].
  - specialize (IH (f acc it)).
    destruct (fold_left f range (f acc it)) as [best|].
    + destruct IH as [Hacc|(it' & Hin & Heq)].
      * destruct acc as [b|]; simpl in Hacc.
        -- destruct (Cost.lt _ _); injection Hacc as <-.
           ++ right. exists it. split; [apply list_elem_of_here|done].
           ++ by left.
        -- injection Hacc as <-. right. exists it.
           split; [apply list_elem_of_here|done].
      * right. exists it'. split; [apply elem_of_cons; by right|done].
    + destruct IH as [Hacc _]. destruct acc as [b|]; simpl in Hacc; [|done].
      by destruct (Cost.lt _ _).
Qed.

(** The best vertex at a tile is one of the entries there, and there is
    one when the range is not empty. *)
Lemma select_best_spec (range : list entry) :
  match select_best range with
  | None => range = []
  | Some best => exists it, it ∈ range /\ it.2 = best
  end.
Proof.
  pose proof (select_best_from range None) as H. simpl in H.
  unfold select_best. destruct (fold_left _ range None) as [best|].
  - by destruct H as [|H].
  - by destruct H.
Qed.


Section FindPath.

Context (W : world).


End FindPath.


(** * Further properties of the code *)

(** ** Costs *)

(** X1: [cost::operator==] holds exactly for costs with the same four
    fields, although each of its two tuples mixes fields of both costs; and
    of [a < b], [a == b] and [b < a] exactly one holds. *)
Theorem cost_order_trichotomy :
  forall a b : Cost.cost,
    (Cost.eq a b = true <-> a = b)
    /\ ((Cost.lt a b = true /\ Cost.eq a b = false /\ Cost.lt b a = false)
        \/ (Cost.lt a b = false /\ Cost.eq a b = true /\ Cost.lt b a = false)
        \/ (Cost.lt a b = false /\ Cost.eq a b = false /\ Cost.lt b a = true)).
Proof.
  intros a b. split; [apply eq_spec|].
  destruct (decide (a = b)) as [->|Hne].
  - right. left. split; [apply lt_false_spec, lex_less_irrefl|].
    split; [by apply eq_spec|apply lt_false_spec, lex_less_irrefl].
  - assert (Cost.eq a b = false) as Heq.
    { destruct (Cost.eq a b) eqn:He; [|done]. by apply eq_spec in He. }
    destruct (lex_less_total a b Hne) as [Hl|Hl].
    + left. split; [by apply lt_spec|]. split; [done|].
      apply lt_false_spec. intros Hr. revert Hl Hr. unfold Cost.lex_less. lia.
    + right. right. split; [|by split; [|apply lt_spec]].
      apply lt_false_spec. intros Hr. revert Hl Hr. unfold Cost.lex_less. lia.
Qed.

(** X2: comparability of costs is not transitive, as the comment of
    [vertex::comparable] says: a cost can be comparable with two costs that
    are not comparable with each other. *)
Theorem cost_comparable_not_transitive :
  exists a b c : Cost.cost,
    Cost.comparable a b = true /\ Cost.comparable b c = true
    /\ Cost.comparable a c = false.
Proof.
  exists (Cost.mk_cost 0 1 10 0), (Cost.mk_cost 0 2 10 0), (Cost.mk_cost 0 2 5 0).
  done.
Qed.

(** X3: between comparable costs the order of the queue is the dominance
    of the frontier: [a < b] holds exactly when [a] is at least as good as
    [b] in the four criteria and differs from it.  This is what makes the
    eviction test of [maybe_insert_vertex] a test of strict dominance. *)
Theorem comparable_lt_strictly_dominates (a b : Cost.cost) :
  Cost.comparable a b = true ->
  (Cost.lt a b = true <-> Cost.dominates a b /\ a <> b).
Proof.
  intros Hc. split.
  - intros Hl. split; [by apply comparable_lt_dominates|].
    intros ->. apply lt_spec in Hl. by apply lex_less_irrefl in Hl.
  - intros [Hd Hne]. apply lt_spec.
    destruct (lex_less_total a b Hne) as [|Hl]; [done|].
    revert Hd Hl. unfold Cost.dominates, Cost.lex_less. lia.
Qed.

Lemma comparable_lt_strictly_dominates_witness :
  Cost.lt (Cost.mk_cost 0 3 10 0) (Cost.mk_cost 1 3 10 0) = true
  <-> Cost.dominates (Cost.mk_cost 0 3 10 0) (Cost.mk_cost 1 3 10 0)
      /\ Cost.mk_cost 0 3 10 0 <> Cost.mk_cost 1 3 10 0.
Proof.
  exact (comparable_lt_strictly_dominates (Cost.mk_cost 0 3 10 0)
           (Cost.mk_cost 1 3 10 0) eq_refl).
Defined.

(** ** Probes *)

(** X4: the probe of the root is the unit.  [fill_probe] applied to the
    root vertex of a unit gives the unit back when the unit's
    [transported_by] is the id of its transporter (-1 without one); and the
    root vertex of a probe filled from a vertex is that vertex at turn 0,
    without parent and order. *)
Theorem root_probe_round_trip :
  (forall u : Unit.unit,
     Unit.transported_by u
     = match Unit.transporter u with Some t => t | None => -1 end ->
     Vertex.fill_probe (root_vertex u) u = u)
  /\ (forall (v : Vertex.vertex) (u : Unit.unit),
        root_vertex (Vertex.fill_probe v u)
        = Vertex.set_order Order.zero
            (Vertex.set_parent None (Vertex.set_turns 0 v))).
Proof.
  split.
  - intros [t tr tb m f h ml ut s]; simpl. intros ->. reflexivity.
  - intros [l ld m [t ml h f] p o] u. reflexivity.
Qed.

Lemma root_probe_round_trip_witness :
  Vertex.fill_probe (root_vertex (walker 5)) (walker 5) = walker 5.
Proof. exact (proj1 root_probe_round_trip (walker 5) eq_refl). Defined.

(** ** The change of turn and the candidates of the rules *)

Section Candidates.

Context (W : world).

(** X5: what the change of turn does to a vertex.  A vertex with moves
    left passes unchanged.  A vertex without moves left that survives keeps
    its location, transporter, parent and order, gets one turn more, the
    move rate of its probe and positive hit points, and is marked as not
    moved; a unit type without fuel keeps its fuel, and a unit type with
    fuel that is not being refuelled is left with at least one unit. *)
Theorem turn_change_shape (u : Unit.unit) (v ins : Vertex.vertex) :
  turn_change W u v = Some ins ->
  Vertex.location ins = Vertex.location v
  /\ Vertex.loaded ins = Vertex.loaded v
  /\ Vertex.parent ins = Vertex.parent v
  /\ Vertex.order ins = Vertex.order v
  /\ (0 < Cost.moves_left (Vertex.cost v) -> ins = v)
  /\ (Cost.moves_left (Vertex.cost v) <= 0 ->
      Cost.turns (Vertex.cost ins) = Cost.turns (Vertex.cost v) + 1
      /\ Vertex.moved ins = false
      /\ Cost.moves_left (Vertex.cost ins) = unit_move_rate W (Vertex.fill_probe v u)
      /\ 0 < Cost.health (Vertex.cost ins)
      /\ (utype_fuel W (Unit.utype u) = 0 ->
          Cost.fuel_left (Vertex.cost ins) = Cost.fuel_left (Vertex.cost v))
      /\ (utype_fuel W (Unit.utype u) <> 0 ->
          is_unit_being_refueled W (Vertex.fill_probe v u) = false ->
          Cost.fuel_left (Vertex.cost ins) = Cost.fuel_left (Vertex.cost v) - 1
          /\ 1 <= Cost.fuel_left (Vertex.cost ins))).
Proof.
  unfold turn_change.
  destruct (Z.leb_spec (Cost.moves_left (Vertex.cost v)) 0) as [Hm|Hm].
  - change (Unit.utype (Vertex.fill_probe v u)) with (Unit.utype u).
    change (Unit.fuel (Vertex.fill_probe v u)) with (Cost.fuel_left (Vertex.cost v)).
    destruct (Z.eqb_spec (utype_fuel W (Unit.utype u)) 0) as [Hf|Hf]; simpl;
      [|destruct (is_unit_being_refueled W (Vertex.fill_probe v u)) eqn:Hr; simpl;
        [|destruct (Z.leb_spec (Cost.fuel_left (Vertex.cost v)) 1); simpl; [done|]]];
      (match goal with
       | |- context [Unit.hp ?x <=? 0] => destruct (Z.leb_spec (Unit.hp x) 0)
       end; [done|]);
      intros [= <-]; simpl; repeat split; first [done | lia].
  - intros [= <-]. repeat split; first [done | lia].
Qed.

(** X6: a move never leaves a negative number of move fragments.  Every
    vertex that [attempt_move] makes comes from a source that is not
    loaded, sits on a neighbour of the source that is known and that the
    probe can move to, is marked as moved and not loaded, carries the order
    to move in the direction of that neighbour, and has the moves left of
    the source less the move cost, but not less than zero because the cost
    is capped by what the source has left. *)
Theorem move_candidate_capped (u : Unit.unit) (self : address)
    (source next : Vertex.vertex) :
  Candidate next ∈ move_events W u self source ->
  Vertex.loaded source = None
  /\ exists (target : tile) (dir : Z),
       (target, dir) ∈ adjc_dir W (Vertex.location source)
       /\ terrain_known W target = true
       /\ unit_can_move_to_tile W (Vertex.fill_probe source u) target = true
       /\ next = Vertex.mk_vertex target None true
                   (Cost.mk_cost (Cost.turns (Vertex.cost source))
                      (Z.max 0 (Cost.moves_left (Vertex.cost source)
                                - map_move_cost_unit W (Vertex.fill_probe source u) target))
                      (Cost.health (Vertex.cost source))
                      (Cost.fuel_left (Vertex.cost source)))
                   (Some self)
                   (Order.mk_order ORDER_MOVE (Order.action (Vertex.order source))
                      (Order.target (Vertex.order source)) (DIR8 dir)).
Proof.
  unfold move_events. case_bool_decide as Hl; [|by intros ?%elem_of_nil].
  rewrite list_elem_of_In, in_flat_map. intros ([target dir] & Hadj & Hin).
  split; [done|]. exists target, dir. rewrite list_elem_of_In. split; [done|].
  destruct (terrain_known W target); simpl in Hin; [|done].
  destruct (unit_can_move_to_tile W _ target); simpl in Hin; [|done].
  destruct Hin as [[= <-]|[]]. split; [done|]. split; [done|].
  destruct source as [l ld m [t ml h f] p o]; simpl in *. subst ld.
  unfold Vertex.set_order, Vertex.set_parent, Vertex.set_moves_left, Vertex.set_cost,
    Vertex.set_moved, Vertex.set_location; simpl.
  do 2 f_equal. lia.
Qed.

(** X7: every rule labels its vertices with its own order.  The wait
    makes one vertex, the source without moves left and with the order to
    wait for full move points.  A vertex of the load rule is loaded and
    carries the order to board or to embark.  The unload rule makes
    vertices only from a loaded source; they are not loaded and carry the
    order to alight or to disembark.  The vertices of the last two rules
    have no direction, and those that change tile are marked as moved. *)
Theorem rule_candidates_labelled (u : Unit.unit) (self : address)
    (source : Vertex.vertex) :
  full_mp_events self source
  = [Candidate
       (Vertex.mk_vertex (Vertex.location source) (Vertex.loaded source)
          (Vertex.moved source)
          (Cost.mk_cost (Cost.turns (Vertex.cost source)) 0
             (Cost.health (Vertex.cost source)) (Cost.fuel_left (Vertex.cost source)))
          (Some self)
          (Order.mk_order ORDER_FULL_MP (Order.action (Vertex.order source))
             (Order.target (Vertex.order source)) (Order.dir (Vertex.order source))))]
  /\ (forall next : Vertex.vertex,
        Candidate next ∈ load_events W u self source ->
        Vertex.loaded next <> None
        /\ Vertex.location next = Vertex.location source
        /\ Order.order (Vertex.order next) = ORDER_PERFORM_ACTION
        /\ Order.dir (Vertex.order next) = DIR8_ORIGIN
        /\ ((Order.action (Vertex.order next) = Some ACTION_TRANSPORT_BOARD
             /\ Order.target (Vertex.order next) = Vertex.location source
             /\ Vertex.moved next = Vertex.moved source)
            \/ (Order.action (Vertex.order next) = Some ACTION_TRANSPORT_EMBARK
                /\ Order.target (Vertex.order next) ∈ adjc W (Vertex.location source)
                /\ Vertex.moved next = true)))
  /\ (forall next : Vertex.vertex,
        Candidate next ∈ unload_events W u self source ->
        Vertex.loaded source <> None
        /\ Vertex.loaded next = None
        /\ Vertex.location next = Vertex.location source
        /\ Order.order (Vertex.order next) = ORDER_PERFORM_ACTION
        /\ Order.dir (Vertex.order next) = DIR8_ORIGIN
        /\ ((Order.action (Vertex.order next) = Some ACTION_TRANSPORT_ALIGHT
             /\ Order.target (Vertex.order next) = Vertex.location source
             /\ Vertex.moved next = Vertex.moved source)
            \/ ((Order.action (Vertex.order next) = Some ACTION_TRANSPORT_DISEMBARK1
                 \/ Order.action (Vertex.order next) = Some ACTION_TRANSPORT_DISEMBARK2)
                /\ Order.target (Vertex.order next) ∈ adjc W (Vertex.location source)
                /\ Vertex.moved next = true))).
Proof.
  split; [by destruct source as [l ld m [t ml h f] p o]|]. split.
  - intros next. unfold load_events. rewrite elem_of_app. intros [Hin|Hin].
    + destruct (transporter_for_unit W _) as [transport|]; [|by apply elem_of_nil in Hin].
      destruct (is_action_enabled_unit_on_unit W _ _ _);
        [|by apply elem_of_nil in Hin].
      apply list_elem_of_singleton in Hin. injection Hin as ->. simpl.
      do 4 (split; [done|]). by left.
    + rewrite list_elem_of_In, in_flat_map in Hin. destruct Hin as (target & Hadj & Hin).
      apply list_elem_of_In in Hadj.
      destruct (transporter_for_unit W _) as [transport|].
      * destruct (is_action_enabled_unit_on_unit W _ _ _).
        -- destruct Hin as [[= <-]|[]]. simpl. do 4 (split; [done|]). by right.
        -- destruct Hin as [|[]]; done.
      * destruct Hin as [|[]]; done.
  - intros next. unfold unload_events. simpl.
    destruct (Vertex.loaded source) as [transporter|] eqn:Hl; [|by intros ?%elem_of_nil].
    rewrite elem_of_app. intros [Hin|Hin].
    + destruct (is_action_enabled_unit_on_unit W _ _ _);
        [|by apply elem_of_nil in Hin].
      apply list_elem_of_singleton in Hin. injection Hin as ->. simpl.
      do 5 (split; [done|]). by left.
    + rewrite list_elem_of_In, in_flat_map in Hin. destruct Hin as (target & Hadj & Hin).
      apply list_elem_of_In in Hadj.
      apply in_app_or in Hin as [Hin|Hin].
      * destruct (is_action_enabled_unit_on_tile W _ _ _); [|done].
        destruct Hin as [[= <-]|[]]. simpl. do 5 (split; [done|]).
        right. split; [by left|done].
      * destruct (is_action_enabled_unit_on_tile W ACTION_TRANSPORT_DISEMBARK2 _ _);
          [|done].
        destruct Hin as [[= <-]|[]]. simpl. do 5 (split; [done|]).
        right. split; [by right|done].
Qed.

End Candidates.

(** A world with transports: unit 7 carries on tile 0 and unit 8 on
    tile 1, the only neighbour of tile 0; boarding, embarking, alighting
    and the first kind of disembarking are enabled and cost one move
    fragment, as does a move. *)
Definition ferry_world : world :=
  {| unit_move_rate := fun _ => 3;
     utype_fuel := fun _ => 0;
     is_unit_being_refueled := fun _ => false;
     unit_restore_hitpoints := fun u => u;
     adjc_dir := fun t => if t =? 0 then [(1, 4)] else [];
     adjc := fun t => if t =? 0 then [1] else [];
     terrain_known := fun _ => true;
     unit_can_move_to_tile := fun _ _ => false;
     map_move_cost_unit := fun _ _ => 1;
     transporter_for_unit := fun u =>
       if Unit.tile u =? 0 then Some 7 else if Unit.tile u =? 1 then Some 8 else None;
     is_action_enabled_unit_on_unit := fun _ _ _ => true;
     is_action_enabled_unit_on_tile := fun a _ _ =>
       bool_decide (a = ACTION_TRANSPORT_DISEMBARK1);
     unit_pays_mp_for_action := fun _ _ => 1 |}.

Lemma turn_change_shape_witness :
  Vertex.location
    (Vertex.mk_vertex 4 None false (Cost.mk_cost 1 2 10 1) (Some O) Order.zero) = 4.
Proof.
  exact (proj1 (turn_change_shape air_world (walker 2) (aircraft_at 4 10 2)
                  (Vertex.mk_vertex 4 None false (Cost.mk_cost 1 2 10 1) (Some O)
                     Order.zero)
                  eq_refl)).
Defined.

Lemma move_candidate_capped_witness :
  Vertex.loaded (root_vertex (walker 1)) = None.
Proof.
  refine (proj1 (move_candidate_capped two_tiles (walker 1) 0%nat
                   (root_vertex (walker 1))
                   (Vertex.mk_vertex 1 None true (Cost.mk_cost 0 0 10 0) (Some 0%nat)
                      (Order.mk_order ORDER_MOVE None 0 (DIR8 4))) _)).
  vm_compute. apply list_elem_of_here.
Defined.

(** [ferry_world] with a move cost of three fragments. *)
Definition steep_ferry_world : world :=
  {| unit_move_rate := unit_move_rate ferry_world;
     utype_fuel := utype_fuel ferry_world;
     is_unit_being_refueled := is_unit_being_refueled ferry_world;
     unit_restore_hitpoints := unit_restore_hitpoints ferry_world;
     adjc_dir := adjc_dir ferry_world;
     adjc := adjc ferry_world;
     terrain_known := terrain_known ferry_world;
     unit_can_move_to_tile := unit_can_move_to_tile ferry_world;
     map_move_cost_unit := fun _ _ => 3;
     transporter_for_unit := transporter_for_unit ferry_world;
     is_action_enabled_unit_on_unit := is_action_enabled_unit_on_unit ferry_world;
     is_action_enabled_unit_on_tile := is_action_enabled_unit_on_tile ferry_world;
     unit_pays_mp_for_action := unit_pays_mp_for_action ferry_world |}.

(** The load rule on [ferry_world] from the root on tile 0: boarding
    unit 7 on the spot and embarking on unit 8 next door, both filed at
    tile 0. *)
Example load_events_ferry :
  load_events ferry_world (walker 3) 0%nat (root_vertex (walker 3))
  = [Candidate (Vertex.mk_vertex 0 (Some 7) false (Cost.mk_cost 0 1 10 0) (Some 0%nat)
                  (Order.mk_order ORDER_PERFORM_ACTION (Some ACTION_TRANSPORT_BOARD)
                     0 DIR8_ORIGIN));
     Candidate (Vertex.mk_vertex 0 (Some 8) true (Cost.mk_cost 0 0 10 0) (Some 0%nat)
                  (Order.mk_order ORDER_PERFORM_ACTION (Some ACTION_TRANSPORT_EMBARK)
                     1 DIR8_ORIGIN))].
Proof. reflexivity. Qed.

Lemma rule_candidates_labelled_witness :
  Vertex.loaded
    (Vertex.mk_vertex 0 (Some 8) true (Cost.mk_cost 0 0 10 0) (Some 0%nat)
       (Order.mk_order ORDER_PERFORM_ACTION (Some ACTION_TRANSPORT_EMBARK) 1 DIR8_ORIGIN))
  <> None.
Proof.
  refine (proj1 (proj1 (proj2 (rule_candidates_labelled ferry_world (walker 3) 0%nat
                                 (root_vertex (walker 3)))) _ _)).
  vm_compute. apply list_elem_of_further, list_elem_of_here.
Defined.

(** ** The effect of an admission *)

Section Effect.

Context (W : world).

(** The two ways [maybe_insert_vertex] can end. *)
Lemma maybe_insert_vertex_cases (v : Vertex.vertex) (st : path_finder_private) :
  let st' := maybe_insert_vertex W v st in
  let range := bucket (Vertex.location v) (best_vertices st) in
  let range' := bucket (Vertex.location v) (best_vertices st') in
  (queue st' = queue st /\ next_address st' = next_address st
   /\ sublist range' range)
  \/ (exists (insert : Vertex.vertex) (kept : list entry),
        turn_change W (unit st) v = Some insert
        /\ sublist kept range
        /\ (forall e : entry, e ∈ kept -> Vertex.comparable e.2 insert = false)
        /\ range' = kept ++ [(next_address st, insert)]
        /\ queue st' = push insert (queue st)
        /\ next_address st' = S (next_address st)).
Proof.
  intros st' range range'. subst st' range'.
  destruct (turn_change W (unit st) v) as [insert|] eqn:Ht.
  - rewrite (maybe_insert_vertex_result W v st insert Ht). fold range.
    destruct ((scan insert range).2) eqn:Hd; simpl; rewrite bucket_insert.
    + right. exists insert, (scan insert range).1.
      split; [done|]. split; [apply scan_sublist|].
      split; [apply (proj1 (scan_inserts insert range Hd))|done].
    + left. split; [done|]. split; [done|]. apply scan_sublist.
  - left. unfold maybe_insert_vertex. rewrite Ht. done.
Qed.

(** X8: [maybe_insert_vertex] leaves the unit and the entries of every
    other tile alone, and a vertex enters the queue exactly when it enters
    the frontier.  Either nothing is added (the queue and the next address
    are as before and the entries at the tile of the candidate are some of
    the old ones), or the vertex that the change of turn gave goes to the
    queue and, under the next address, to the end of the entries at the
    tile of the candidate, where none of the entries that stay is
    comparable with it. *)
Theorem maybe_insert_vertex_effect (v : Vertex.vertex) (st : path_finder_private) :
  let st' := maybe_insert_vertex W v st in
  let range := bucket (Vertex.location v) (best_vertices st) in
  let range' := bucket (Vertex.location v) (best_vertices st') in
  unit st' = unit st
  /\ (forall k : tile, k <> Vertex.location v ->
        bucket k (best_vertices st') = bucket k (best_vertices st))
  /\ ((queue st' = queue st /\ next_address st' = next_address st
       /\ sublist range' range)
      \/ (exists (insert : Vertex.vertex) (kept : list entry),
            turn_change W (unit st) v = Some insert
            /\ sublist kept range
            /\ (forall e : entry, e ∈ kept -> Vertex.comparable e.2 insert = false)
            /\ range' = kept ++ [(next_address st, insert)]
            /\ queue st' = push insert (queue st)
            /\ next_address st' = S (next_address st))).
Proof.
  intros st' range range'.
  split; [apply maybe_insert_vertex_unit|].
  split; [intros k Hk; by apply maybe_insert_vertex_elsewhere|].
  apply maybe_insert_vertex_cases.
Qed.

End Effect.

(** ** What holds in every state of a path finder *)

(** The state that the search from tile 0 to tile 1 of [two_tiles] leaves. *)
Definition two_tiles_searched : path_finder_private :=
  state_after (construct (walker 1))
    (find_path two_tiles 3 (Some 1) (construct (walker 1))).

Lemma reachable_two_tiles_searched : reachable two_tiles two_tiles_searched.
Proof.
  eapply (reachable_find_path two_tiles 3 (Some 1) (construct (walker 1)));
    [apply reachable_construct|].
  vm_compute. reflexivity.
Qed.

Section Structure.

Context (W : world).

(** The entries are filed under their location, the only vertex without
    parent is the root of the unit, and the tile of the unit has an entry. *)
Definition filed (st : path_finder_private) : Prop :=
  (forall (k : tile) (e : entry),
     e ∈ bucket k (best_vertices st) -> Vertex.location e.2 = k)
  /\ (forall (k : tile) (e : entry),
        e ∈ bucket k (best_vertices st) -> Vertex.parent e.2 = None ->
        e.2 = root_vertex (unit st))
  /\ bucket (Unit.tile (unit st)) (best_vertices st) <> [].

Lemma filed_maybe_insert_vertex v st :
  Vertex.parent v <> None -> filed st -> filed (maybe_insert_vertex W v st).
Proof.
  intros Hparent (Hloc & Hroot & Hunit). split; [|split].
  - intros k e Hin.
    apply maybe_insert_vertex_entry in Hin as [Hin|(-> & _ & Ht)]; [by eapply Hloc|].
    by apply turn_change_turns in Ht as (_ & ? & _).
  - intros k e Hin Hnone. rewrite maybe_insert_vertex_unit.
    apply maybe_insert_vertex_entry in Hin as [Hin|(_ & _ & Ht)]; [by eapply Hroot|].
    apply turn_change_turns in Ht as (Hp & _). congruence.
  - rewrite maybe_insert_vertex_unit.
    destruct (decide (Unit.tile (unit st) = Vertex.location v)) as [Heq|Hne];
      [|by rewrite maybe_insert_vertex_elsewhere].
    rewrite Heq in *.
    destruct (turn_change W (unit st) v) as [insert|] eqn:Ht;
      [|unfold maybe_insert_vertex; by rewrite Ht].
    rewrite (maybe_insert_vertex_range W v st insert Ht).
    destruct ((scan insert _).2) eqn:Hd; [|by apply scan_not_empty].
    by destruct ((scan insert _).1).
Qed.

Lemma filed_insert_initial_vertex (u : Unit.unit) (n : address) :
  filed (insert_initial_vertex
           {| unit := u; best_vertices := ∅; queue := []; next_address := n |}).
Proof.
  unfold insert_initial_vertex, filed. simpl.
  assert (forall k (e : entry),
            e ∈ bucket k (<[Unit.tile u := bucket (Unit.tile u) ∅ ++ [(n, root_vertex u)]]>
                            (∅ : gmap Z (list entry))) ->
            k = Unit.tile u /\ e = (n, root_vertex u)) as Hin.
  { intros k e. destruct (decide (Unit.tile u = k)) as [<-|Hne].
    - rewrite bucket_insert. unfold bucket. rewrite lookup_empty. simpl.
      by intros ->%list_elem_of_singleton.
    - rewrite bucket_insert_ne by done. unfold bucket. rewrite lookup_empty.
      by intros ?%elem_of_nil. }
  split; [|split].
  - intros k e [-> ->]%Hin. done.
  - intros k e [-> ->]%Hin. done.
  - rewrite bucket_insert. unfold bucket. rewrite lookup_empty. done.
Qed.

Lemma reachable_filed (st : path_finder_private) : reachable W st -> filed st.
Proof.
  apply preserved_reachable.
  - apply filed_maybe_insert_vertex.
  - done.
  - apply filed_insert_initial_vertex.
Qed.

(** X10: the shape of the frontier in every state of a path finder.
    Every entry is filed under the tile of its vertex; a vertex without
    parent is the root vertex of the unit; the tile of the unit always has
    an entry; and the tile of every vertex of the queue has an entry. *)
Theorem reachable_frontier_structure (st : path_finder_private) :
  reachable W st ->
  (forall (k : tile) (e : entry),
     e ∈ bucket k (best_vertices st) -> Vertex.location e.2 = k)
  /\ (forall (k : tile) (e : entry),
        e ∈ bucket k (best_vertices st) -> Vertex.parent e.2 = None ->
        k = Unit.tile (unit st) /\ e.2 = root_vertex (unit st))
  /\ bucket (Unit.tile (unit st)) (best_vertices st) <> []
  /\ (forall v : Vertex.vertex,
        v ∈ queue st -> bucket (Vertex.location v) (best_vertices st) <> []).
Proof.
  intros Hreach.
  destruct (reachable_filed st Hreach) as (Hloc & Hroot & Hunit).
  destruct (reachable_well_formed W st Hreach) as [Horphan Hqueue].
  split; [done|]. split; [|by split].
  intros k e Hin Hnone. split; [by eapply Horphan|by eapply Hroot].
Qed.

End Structure.

Lemma reachable_frontier_structure_witness :
  bucket (Unit.tile (unit two_tiles_searched)) (best_vertices two_tiles_searched) <> [].
Proof.
  exact (proj1 (proj2 (proj2 (reachable_frontier_structure two_tiles two_tiles_searched
                                reachable_two_tiles_searched)))).
Defined.

(** X9: the frontier of a path finder is a Pareto frontier.  In every
    state, of two entries at the same tile with the same transporter and
    the same moved flag neither is at least as good as the other in all
    four criteria; in particular no two of them have the same cost. *)
Theorem frontier_is_pareto (W : world) (st : path_finder_private) :
  reachable W st ->
  forall (k : tile) (i j : nat) (a b : entry),
    i <> j ->
    bucket k (best_vertices st) !! i = Some a ->
    bucket k (best_vertices st) !! j = Some b ->
    Vertex.loaded a.2 = Vertex.loaded b.2 ->
    Vertex.moved a.2 = Vertex.moved b.2 ->
    ~ Cost.dominates (Vertex.cost a.2) (Vertex.cost b.2).
Proof.
  intros Hreach k i j a b Hne Hi Hj Hl Hm Hd.
  pose proof (reachable_frontier_incomparable W st Hreach k i j a b Hne Hi Hj) as Hinc.
  destruct (reachable_filed W st Hreach) as (Hloc & _).
  assert (Vertex.comparable a.2 b.2 = true); [|congruence].
  apply vertex_comparable_spec.
  rewrite (Hloc k a), (Hloc k b) by by eapply list_elem_of_lookup_2.
  do 3 (split; [done|]). apply comparable_spec. by right.
Qed.

(** The state that the search from tile 0 to tile 1 of [triangle] leaves
    when the unit starts with three of its five move fragments. *)
Definition triangle_searched : path_finder_private :=
  state_after (construct (walker 3))
    (find_path triangle 9 (Some 1) (construct (walker 3))).

Lemma reachable_triangle_searched : reachable triangle triangle_searched.
Proof.
  eapply (reachable_find_path triangle 9 (Some 1) (construct (walker 3)));
    [apply reachable_construct|].
  vm_compute. reflexivity.
Qed.

(** ** Addresses and parents *)

From stdpp Require Import sorting.

Local Open Scope Z_scope.

(** Every address of the frontier is below the next address, an address
    names one vertex, and a parent has a lower address than its child. *)
Definition addresses_ok (st : path_finder_private) : Prop :=
  (forall (k : tile) (e : entry),
     e ∈ bucket k (best_vertices st) -> (e.1 < next_address st)%nat)
  /\ (forall (k k' : tile) (e e' : entry),
        e ∈ bucket k (best_vertices st) -> e' ∈ bucket k' (best_vertices st) ->
        e.1 = e'.1 -> e = e')
  /\ (forall (k : tile) (e : entry) (p : address),
        e ∈ bucket k (best_vertices st) -> Vertex.parent e.2 = Some p ->
        (p < e.1)%nat).

(** A parent that is still in the frontier has at most the turns of
    its child. *)
Definition edges_monotone (st : path_finder_private) : Prop :=
  forall (k : tile) (e : entry) (p : address) (pv : Vertex.vertex),
    e ∈ bucket k (best_vertices st) -> Vertex.parent e.2 = Some p ->
    deref p (best_vertices st) = Some pv ->
    Cost.turns (Vertex.cost pv) <= Cost.turns (Vertex.cost e.2).

Definition linked (st : path_finder_private) : Prop :=
  addresses_ok st /\ edges_monotone st.

Lemma deref_elem_of (a : address) (bv : gmap Z (list entry)) (v : Vertex.vertex) :
  deref a bv = Some v -> exists k, (a, v) ∈ bucket k bv.
Proof.
  unfold deref. destruct (List.find _ (entries bv)) as [[a' v']|] eqn:Hf; [|done].
  intros [= <-]. apply List.find_some in Hf as [Hin Ha].
  apply bool_decide_eq_true in Ha. simpl in Ha. subst a'.
  unfold entries in Hin. apply in_concat in Hin as (l & Hl & Hin).
  apply in_map_iff in Hl as ([k l'] & <- & Hkl). simpl in Hin.
  apply list_elem_of_In, elem_of_map_to_list in Hkl.
  exists k. unfold bucket, tile. rewrite Hkl. simpl. by apply list_elem_of_In.
Qed.

Lemma elem_of_deref (st : path_finder_private) (k : tile) (a : address)
    (v : Vertex.vertex) :
  addresses_ok st -> (a, v) ∈ bucket k (best_vertices st) ->
  deref a (best_vertices st) = Some v.
Proof.
  intros (_ & Hone & _) Hin.
  destruct (deref a (best_vertices st)) as [v'|] eqn:Hd.
  - apply deref_elem_of in Hd as [k' Hin'].
    by specialize (Hone k' k (a, v') (a, v) Hin' Hin eq_refl) as [= ->].
  - exfalso. unfold deref in Hd.
    destruct (List.find _ (entries (best_vertices st))) eqn:Hf; [done|].
    assert (In (a, v) (entries (best_vertices st))) as Hent.
    { unfold entries. apply in_concat. exists (bucket k (best_vertices st)).
      split; [|by apply list_elem_of_In].
      unfold bucket in *. destruct (best_vertices st !! k) as [l|] eqn:Hk;
        simpl in *; [|by apply elem_of_nil in Hin].
      apply in_map_iff. exists (k, l). split; [done|].
      by apply list_elem_of_In, elem_of_map_to_list. }
    pose proof (List.find_none _ _ Hf _ Hent) as Hfalse. simpl in Hfalse.
    by rewrite bool_decide_eq_true_2 in Hfalse.
Qed.

Section Linked.

Context (W : world).

(** An entry after [maybe_insert_vertex] is an old one, or the new one
    under the address that was the next. *)
Lemma maybe_insert_vertex_old_or_new v st k (e : entry) :
  e ∈ bucket k (best_vertices (maybe_insert_vertex W v st)) ->
  (e ∈ bucket k (best_vertices st)
   /\ (next_address st <= next_address (maybe_insert_vertex W v st))%nat)
  \/ (e.1 = next_address st
      /\ next_address (maybe_insert_vertex W v st) = S (next_address st)
      /\ turn_change W (unit st) v = Some e.2).
Proof.
  destruct (maybe_insert_vertex_cases W v st)
    as [(_ & Hn & Hsub)|(insert & kept & Ht & Hsub & _ & Hr & _ & Hn)].
  - intros Hin. left. rewrite Hn. split; [|done].
    destruct (decide (k = Vertex.location v)) as [->|Hne].
    + by eapply elem_of_sublist.
    + by rewrite maybe_insert_vertex_elsewhere in Hin.
  - rewrite Hn. destruct (decide (k = Vertex.location v)) as [->|Hne].
    + rewrite Hr. rewrite elem_of_app. intros [Hin|Hin%list_elem_of_singleton].
      * left. split; [by eapply elem_of_sublist|lia].
      * right. by subst e.
    + rewrite maybe_insert_vertex_elsewhere by done. intros Hin. left.
      split; [done|lia].
Qed.

Lemma linked_maybe_insert_vertex v st self src :
  linked st -> Vertex.parent v = Some self ->
  deref self (best_vertices st) = Some src ->
  Cost.turns (Vertex.cost v) = Cost.turns (Vertex.cost src) ->
  linked (maybe_insert_vertex W v st).
Proof.
  intros [Haddr Hedges] Hparent Hsrc Hturns.
  pose proof Haddr as (Hbelow & Hone & Holder).
  destruct (deref_elem_of _ _ _ Hsrc) as [ks Hself].
  pose proof (Hbelow _ _ Hself) as Hself_below. simpl in Hself_below.
  assert (addresses_ok (maybe_insert_vertex W v st)) as Haddr'.
  { split; [|split].
    - intros k e [[Hin Hle]|(He & Hn & _)]%maybe_insert_vertex_old_or_new.
      + specialize (Hbelow _ _ Hin). lia.
      + lia.
    - intros k k' e e' [[Hin _]|(He & _ & Ht)]%maybe_insert_vertex_old_or_new
        [[Hin' _]|(He' & _ & Ht')]%maybe_insert_vertex_old_or_new Heq.
      + by eapply Hone.
      + specialize (Hbelow _ _ Hin). lia.
      + specialize (Hbelow _ _ Hin'). lia.
      + destruct e, e'; simpl in *. congruence.
    - intros k e p [[Hin _]|(He & _ & Ht)]%maybe_insert_vertex_old_or_new Hp.
      + by eapply Holder.
      + apply turn_change_turns in Ht as (Hp' & _). rewrite He.
        assert (p = self) as -> by congruence. done. }
  split; [done|].
  intros k e p pv Hin Hp Hd.
  apply deref_elem_of in Hd as [kp Hpin].
  apply maybe_insert_vertex_old_or_new in Hin as [[Hin _]|(He & _ & Ht)].
  - pose proof (Holder _ _ _ Hin Hp) as Hlt. pose proof (Hbelow _ _ Hin) as Hb.
    apply maybe_insert_vertex_old_or_new in Hpin as [[Hpin _]|(Hpe & _)];
      [|simpl in Hpe; lia].
    eapply Hedges; [done..|]. by eapply elem_of_deref.
  - pose proof (turn_change_turns W _ _ _ Ht) as (Hp' & _ & Ht').
    assert (p = self) as -> by congruence.
    apply maybe_insert_vertex_old_or_new in Hpin as [[Hpin _]|(Hpe & _)];
      [|simpl in Hpe; lia].
    rewrite (elem_of_deref st kp self pv Haddr Hpin) in Hsrc. injection Hsrc as ->.
    rewrite Ht', Hturns. destruct (_ <=? 0); lia.
Qed.

(** The vertex behind a live address stays the same. *)
Lemma deref_maybe_insert_vertex v st a s s' :
  addresses_ok st -> deref a (best_vertices st) = Some s ->
  deref a (best_vertices (maybe_insert_vertex W v st)) = Some s' -> s' = s.
Proof.
  intros Haddr Hs Hs'. pose proof Haddr as (Hbelow & _).
  destruct (deref_elem_of _ _ _ Hs) as [k Hin].
  destruct (deref_elem_of _ _ _ Hs') as [k' Hin'].
  apply maybe_insert_vertex_old_or_new in Hin' as [[Hin' _]|(He & _)].
  - rewrite (elem_of_deref st k' a s' Haddr Hin') in Hs. congruence.
  - specialize (Hbelow _ _ Hin). simpl in *. lia.
Qed.

Lemma linked_run_events self evs st st' source :
  (forall next, Candidate next ∈ evs ->
     Vertex.parent next = Some self
     /\ Cost.turns (Vertex.cost next) = Cost.turns (Vertex.cost source)) ->
  (forall s, deref self (best_vertices st) = Some s -> s = source) ->
  linked st -> run_events W self evs st = Done st' -> linked st'.
Proof.
  revert st. induction evs as [|ev evs IH]; intros st Hevs Hsame Hl; simpl.
  - by intros [= <-].
  - destruct (deref self (best_vertices st)) as [s|] eqn:Hs; [|done].
    pose proof (Hsame s eq_refl) as ->.
    apply IH.
    + intros next Hin. apply Hevs, elem_of_cons. by right.
    + intros s' Hs'. destruct ev as [|next]; [congruence|].
      eapply deref_maybe_insert_vertex; [apply Hl|done..].
    + destruct ev as [|next]; [done|].
      destruct (Hevs next) as [Hp Ht]; [apply elem_of_cons; by left|].
      by eapply linked_maybe_insert_vertex.
Qed.

Lemma linked_apply_rule r self st st' :
  linked st -> apply_rule W r self st = Done st' -> linked st'.
Proof.
  intros Hl Hrule.
  assert (exists source,
    deref self (best_vertices st) = Some source
    /\ run_events W self (rule_events W r (unit st) self source) st = Done st')
    as (source & Hs & Hrun).
  { destruct r; simpl in Hrule;
      unfold attempt_move, attempt_full_mp, attempt_load, attempt_unload, attempt in Hrule;
      destruct (deref self (best_vertices st)) as [source|]; try done;
      by exists source. }
  eapply linked_run_events; [| |done..].
  - intros next Hin. by eapply rule_candidate.
  - intros s. rewrite Hs. by intros [= <-].
Qed.

End Linked.

(** A property of the state that the four rules and the removal of the top
    of the queue keep, holds along a search. *)
Section PreservationByRules.

Context (W : world) (P : path_finder_private -> Prop).

Hypothesis P_rule :
  forall r self st st', P st -> apply_rule W r self st = Done st' -> P st'.
Hypothesis P_pop : forall st, P st -> P (pop st).
Hypothesis P_seed :
  forall (u : Unit.unit) (n : address),
    P (insert_initial_vertex
         {| unit := u; best_vertices := ∅; queue := []; next_address := n |}).

Lemma rules_keep_expand self st st' :
  P st -> expand W self st = Done st' -> P st'.
Proof.
  intros HP. unfold expand.
  destruct (attempt_move W self st) as [st1| |] eqn:H1; simpl; [|done..].
  apply (P_rule Move) in H1; [|done].
  destruct (attempt_full_mp W self st1) as [st2| |] eqn:H2; simpl; [|done..].
  apply (P_rule FullMp) in H2; [|done].
  destruct (attempt_load W self st2) as [st3| |] eqn:H3; simpl; [|done..].
  apply (P_rule Load) in H3; [|done].
  by apply (P_rule Unload).
Qed.

Lemma rules_keep_search_loop fuel d st found st' :
  P st -> search_loop W fuel d st = Done (found, st') -> P st'.
Proof.
  revert st. induction fuel as [|fuel IH]; intros st HP; simpl; [done|].
  unfold iterate at 1. destruct (queue st) as [|v q]; simpl; [by intros [= _ <-]|].
  case_bool_decide; [by intros [= _ <-]|].
  destruct (current_best v _) as [parent|]; simpl.
  - destruct (expand W parent.1 _) as [st1| |] eqn:He; simpl; [|done..].
    apply IH. eapply rules_keep_expand; [|done]. by apply P_pop.
  - apply IH. by apply P_pop.
Qed.

Lemma rules_keep_find_path fuel destination st r st' :
  P st -> find_path W fuel destination st = Done (r, st') -> P st'.
Proof.
  intros HP. unfold find_path.
  destruct destination as [d|]; [|by intros [= _ <-]].
  destruct (Unit.stay (unit st)); [by intros [= _ <-]|].
  case_bool_decide; [by intros [= _ <-]|].
  destruct (run_search W fuel d st) as [[found st1]| |] eqn:Hs; simpl; [|done..].
  assert (P st1) as HP1.
  { revert Hs. unfold run_search.
    destruct (already_found d st) as [[]| |]; simpl; [|by apply rules_keep_search_loop|done..].
    by intros [= _ <-]. }
  destruct found; [|by intros [= _ <-]].
  destruct (select_best _) as [best|]; [|done].
  destruct (build_steps _ _ _); simpl; [|done..]. by intros [= _ <-].
Qed.

Lemma rules_keep_reachable st : reachable W st -> P st.
Proof.
  induction 1 as [u|changed st _ _|fuel destination st st' r _ IH Hf].
  - apply P_seed.
  - apply P_seed.
  - by eapply rules_keep_find_path.
Qed.

End PreservationByRules.

Lemma linked_insert_initial_vertex (u : Unit.unit) (n : address) :
  linked (insert_initial_vertex
            {| unit := u; best_vertices := ∅; queue := []; next_address := n |}).
Proof.
  unfold insert_initial_vertex, linked, addresses_ok, edges_monotone. simpl.
  assert (forall k (e : entry),
            e ∈ bucket k (<[Unit.tile u := bucket (Unit.tile u) ∅ ++ [(n, root_vertex u)]]>
                            (∅ : gmap Z (list entry))) ->
            e = (n, root_vertex u)) as Hin.
  { intros k e. destruct (decide (Unit.tile u = k)) as [<-|Hne].
    - rewrite bucket_insert. unfold bucket. rewrite lookup_empty. simpl.
      by intros ->%list_elem_of_singleton.
    - rewrite bucket_insert_ne by done. unfold bucket. rewrite lookup_empty.
      by intros ?%elem_of_nil. }
  split; [split; [|split]|].
  - intros k e ->%Hin. simpl. lia.
  - intros k k' e e' ->%Hin ->%Hin. done.
  - intros k e p ->%Hin. done.
  - intros k e p pv ->%Hin. done.
Qed.

Lemma reachable_linked (W : world) (st : path_finder_private) :
  reachable W st -> linked st.
Proof.
  apply rules_keep_reachable.
  - apply linked_apply_rule.
  - done.
  - apply linked_insert_initial_vertex.
Qed.

(** ** The path that [find_path] builds *)

(** The turns of a step. *)
Definition step_turns (s : step) : Z := s.1.1.2.
(** The tile of a step. *)
Definition step_location (s : step) : tile := s.1.1.1.

(** The steps from a vertex of the frontier up to the root. *)
Lemma build_steps_shape (st : path_finder_private) :
  linked st -> filed st ->
  forall (fuel : nat) (k : tile) (a : address) (v : Vertex.vertex) (steps : list step),
    (a, v) ∈ bucket k (best_vertices st) ->
    build_steps fuel (best_vertices st) v = Done steps ->
    0 <= Cost.turns (Vertex.cost v)
    /\ Forall (fun s => 0 <= step_turns s <= Cost.turns (Vertex.cost v)
                        /\ s.1.2 = step_turns s) steps
    /\ StronglySorted (fun s t => step_turns t <= step_turns s) steps
    /\ (length steps <= a)%nat
    /\ (forall s rest, steps = s :: rest ->
          s = (Vertex.location v, Cost.turns (Vertex.cost v),
               Cost.turns (Vertex.cost v), Vertex.order v)).
Proof.
  intros [Haddr Hedges] (_ & Hroot & _).
  pose proof Haddr as (_ & _ & Holder).
  induction fuel as [|fuel IH]; intros k a v steps Hin; simpl;
    destruct (Vertex.parent v) as [p|] eqn:Hp.
  - done.
  - intros [= <-]. pose proof (Hroot k (a, v) Hin Hp) as Hv. simpl in Hv.
    rewrite Hv. simpl.
    split; [done|]. split; [constructor|]. split; [constructor|].
    split; [lia|done].
  - destruct (deref p (best_vertices st)) as [pv|] eqn:Hd; [|done].
    destruct (build_steps fuel (best_vertices st) pv) as [rest| |] eqn:Hb;
      simpl; [|done..].
    intros [= <-].
    destruct (deref_elem_of _ _ _ Hd) as [kp Hpin].
    destruct (IH kp p pv rest Hpin Hb) as (H0 & Hall & Hsorted & Hlen & _).
    pose proof (Hedges k (a, v) p pv Hin Hp Hd) as Hle. simpl in Hle.
    pose proof (Holder k (a, v) p Hin Hp) as Hlt. simpl in Hlt.
    split; [lia|]. split; [|split; [|split]].
    + constructor; [unfold step_turns; simpl; lia|].
      eapply Forall_impl; [done|]. simpl. intros s [Hs ?]. split; [lia|done].
    + constructor; [done|].
      eapply Forall_impl; [done|]. simpl. intros s [Hs ?].
      unfold step_turns at 2. simpl. lia.
    + simpl. lia.
    + by intros s rest' [= <- _].
  - intros [= <-]. pose proof (Hroot k (a, v) Hin Hp) as Hv. simpl in Hv.
    rewrite Hv. simpl.
    split; [done|]. split; [constructor|]. split; [constructor|].
    split; [lia|done].
Qed.

Lemma strongly_sorted_rev {A} (R : relation A) (l : list A) :
  StronglySorted R l -> StronglySorted (flip R) (rev l).
Proof.
  induction 1 as [|x l Hl IH Hx]; simpl; [constructor|].
  apply StronglySorted_app_2; [|done|repeat constructor].
  intros y z Hy ->%list_elem_of_singleton. unfold flip.
  rewrite Forall_forall in Hx. apply Hx.
  apply list_elem_of_In. apply list_elem_of_In, in_rev in Hy. done.
Qed.

Section Paths.

Context (W : world).

(** X11: the walk along the parents ends.  In every state of a path
    finder, from a vertex of the frontier with address [a] the loop of
    [find_path] over the parents makes at most [a] steps when it is given
    at least [a] turns: it returns them, or it reads a parent that the
    frontier has dropped. *)
Theorem path_extraction_terminates (st : path_finder_private) :
  reachable W st ->
  forall (fuel : nat) (k : tile) (e : entry),
    e ∈ bucket k (best_vertices st) -> (e.1 <= fuel)%nat ->
    (exists steps : list step,
       build_steps fuel (best_vertices st) e.2 = Done steps
       /\ (length steps <= e.1)%nat)
    \/ build_steps fuel (best_vertices st) e.2 = Undefined DanglingVertex.
Proof.
  intros [(_ & _ & Holder) _]%reachable_linked.
  induction fuel as [|fuel IH]; intros k [a v] Hin Hfuel; simpl in *;
    destruct (Vertex.parent v) as [p|] eqn:Hp.
  - pose proof (Holder k (a, v) p Hin Hp). simpl in *. lia.
  - left. exists []. split; [done|simpl; lia].
  - pose proof (Holder k (a, v) p Hin Hp) as Hlt. simpl in Hlt.
    destruct (deref p (best_vertices st)) as [pv|] eqn:Hd; [|by right].
    destruct (deref_elem_of _ _ _ Hd) as [kp Hpin].
    destruct (IH kp (p, pv) Hpin ltac:(simpl; lia)) as [(rest & Hrest & Hlen)|Hrest];
      simpl in *; rewrite Hrest; simpl; [|by right].
    left. eexists. split; [done|]. simpl. lia.
  - left. exists []. split; [done|simpl; lia].
Qed.

(** X12: the shape of a path.  When [find_path] returns steps from a
    state of a path finder, the last step is on the destination, the turns
    of the steps are not negative and never decrease from one step to the
    next, both numbers of a step are its turns, and there are fewer steps
    than vertices were ever made. *)
Theorem returned_path_shape (st st' : path_finder_private) (fuel : nat) (d : tile)
    (r : find_path_result) :
  reachable W st ->
  find_path W fuel (Some d) st = Done (r, st') ->
  steps r <> [] ->
  (exists s : step, last (steps r) = Some s /\ step_location s = d)
  /\ StronglySorted (fun s t => step_turns s <= step_turns t) (steps r)
  /\ Forall (fun s => 0 <= step_turns s /\ s.1.2 = step_turns s) (steps r)
  /\ (length (steps r) < next_address st')%nat.
Proof.
  intros Hreach Hfind Hne.
  assert (reachable W st') as Hreach' by by eapply reachable_find_path.
  pose proof (reachable_linked W st' Hreach') as Hlinked.
  pose proof (reachable_filed W st' Hreach') as Hfiled.
  revert Hfind Hne. unfold find_path.
  destruct (Unit.stay (unit st)); [by intros [= <- _]|].
  case_bool_decide; [by intros [= <- _]|].
  destruct (run_search W fuel d st) as [[found st1]| |] eqn:Hs; simpl; [|done..].
  destruct found; [|by intros [= <- _]].
  pose proof (select_best_spec (bucket d (best_vertices st1))) as Hbest.
  destruct (select_best _) as [best|]; [|done].
  destruct Hbest as ([a v] & Hin & <-). simpl.
  destruct (build_steps fuel (best_vertices st1) v) as [steps0| |] eqn:Hb;
    simpl; [|done..].
  intros [= <- <-]. simpl. intros Hne.
  destruct (build_steps_shape st1 Hlinked Hfiled fuel d a v steps0 Hin Hb)
    as (_ & Hall & Hsorted & Hlen & Hhead).
  destruct Hlinked as [(Hbelow & _) _]. specialize (Hbelow d (a, v) Hin).
  destruct Hfiled as (Hloc & _). specialize (Hloc d (a, v) Hin).
  simpl in *. split; [|split; [|split]].
  - destruct steps0 as [|s rest]; [done|].
    rewrite (Hhead s rest eq_refl). simpl. rewrite last_snoc. by eexists.
  - apply (strongly_sorted_rev _ _ Hsorted).
  - apply Forall_rev. eapply Forall_impl; [done|].
    simpl. intros s [[? _] ?]. done.
  - rewrite length_rev. lia.
Qed.

(** A search that has succeeded succeeds again on the state it left. *)
Lemma run_search_again fuel d st st' :
  run_search W fuel d st = Done (true, st') ->
  run_search W fuel d st' = Done (true, st').
Proof.
  unfold run_search at 1.
  destruct (already_found d st) as [[]| |] eqn:Ha; simpl; [| |done..].
  - intros [= <-]. unfold run_search. by rewrite Ha.
  - intros Hloop.
    destruct (search_loop_result W _ _ _ _ _ Hloop) as (v & Hv & Hd).
    destruct (queue st') as [|top q] eqn:Hq; [done|]. injection Hv as ->.
    assert (search_loop W fuel d st' = Done (true, st')) as Hagain.
    { destruct fuel as [|fuel]; [done|]. simpl. unfold iterate. rewrite Hq.
      by rewrite bool_decide_eq_true_2. }
    unfold run_search, already_found. rewrite Hq.
    destruct (head (bucket d (best_vertices st'))); simpl; [|done].
    by destruct (negb _).
Qed.

(** X13: asking again gives the same path.  When [find_path] returns
    steps, the same call on the state that it left returns the same steps
    and leaves that state as it is. *)
Theorem find_path_again (st st' : path_finder_private) (fuel : nat) (d : tile)
    (r : find_path_result) :
  find_path W fuel (Some d) st = Done (r, st') ->
  steps r <> [] ->
  find_path W fuel (Some d) st' = Done (r, st').
Proof.
  unfold find_path.
  destruct (Unit.stay (unit st)) eqn:Hstay; [by intros [= <- _]|].
  case_bool_decide as Htile; [by intros [= <- _]|].
  destruct (run_search W fuel d st) as [[found st1]| |] eqn:Hs; simpl; [|done..].
  destruct found; [|by intros [= <- _]].
  pose proof (run_search_unit W _ _ _ _ _ Hs) as Hunit.
  pose proof (run_search_again _ _ _ _ Hs) as Hagain.
  destruct (select_best (bucket d (best_vertices st1))) as [best|] eqn:Hbest; [|done].
  destruct (build_steps fuel (best_vertices st1) best) as [steps0| |] eqn:Hb;
    simpl; [|done..].
  intros [= <- <-] _.
  rewrite Hunit, Hstay, bool_decide_eq_false_2 by done.
  rewrite Hagain. simpl. rewrite Hbest, Hb. done.
Qed.

(** X14: the unit that a path finder holds is never changed, neither by
    [unit_changed] nor by a call of [find_path] that returns. *)
Theorem unit_never_changes :
  (forall (changed : Unit.unit) (st : path_finder_private),
     unit (unit_changed changed st) = unit st)
  /\ (forall (fuel : nat) (destination : option tile) (st st' : path_finder_private)
        (r : find_path_result),
        find_path W fuel destination st = Done (r, st') -> unit st' = unit st).
Proof.
  split; [done|]. intros fuel destination st st' r.
  apply (preserved_find_path W (fun s => unit s = unit st)); [| |done].
  - intros v s _ <-. apply maybe_insert_vertex_unit.
  - done.
Qed.

End Paths.

(** X15: [find_path] takes a vertex of the lowest cost at the
    destination.  The selection gives nothing exactly for the empty range,
    and otherwise the vertex of an entry of the range that no entry of the
    range comes before in the order of the costs. *)
Theorem select_best_minimal (range : list entry) :
  (select_best range = None <-> range = [])
  /\ (forall best : Vertex.vertex,
        select_best range = Some best ->
        (exists it : entry, it ∈ range /\ it.2 = best)
        /\ (forall e : entry,
              e ∈ range -> Cost.lt (Vertex.cost e.2) (Vertex.cost best) = false)).
Proof.
  pose proof (select_best_spec range) as Hspec.
  split.
  - destruct (select_best range) as [best|]; split; try done.
    intros ->. by destruct Hspec as (? & ?%elem_of_nil & _).
  - intros best Hbest. rewrite Hbest in Hspec. split; [done|].
    revert Hbest. unfold select_best.
    assert (forall (acc : option Vertex.vertex),
      fold_left (fun best0 (it : entry) =>
        match best0 with
        | None => Some it.2
        | Some b => if Cost.lt (Vertex.cost it.2) (Vertex.cost b)
                    then Some it.2 else Some b
        end) range acc = Some best ->
      (forall b, acc = Some b -> Cost.lt (Vertex.cost b) (Vertex.cost best) = false)
      /\ (forall e : entry,
            e ∈ range -> Cost.lt (Vertex.cost e.2) (Vertex.cost best) = false))
      as Hfold; [|by intros [_ ?]%Hfold].
    clear. induction range as [|it range IH]; intros acc; simpl.
    + intros ->. split; [|by intros e ?%elem_of_nil].
      intros b [= ->]. apply lt_false_spec, lex_less_irrefl.
    + intros [Hacc Hall]%IH. split.
      * intros b ->.
        destruct (Cost.lt (Vertex.cost it.2) (Vertex.cost b)) eqn:Hl; [|by apply Hacc].
        specialize (Hacc _ eq_refl). apply lt_spec in Hl.
        apply lt_false_spec in Hacc. apply lt_false_spec.
        revert Hl Hacc. unfold Cost.lex_less. lia.
      * intros e [->|He]%elem_of_cons; [|by apply Hall].
        destruct acc as [b|]; [|by apply Hacc].
        destruct (Cost.lt (Vertex.cost it.2) (Vertex.cost b)) eqn:Hl; [by apply Hacc|].
        specialize (Hacc _ eq_refl). apply lt_false_spec in Hl, Hacc.
        apply lt_false_spec. revert Hl Hacc. unfold Cost.lex_less. lia.
Qed.

(** ** The properties above on the search of [triangle] *)

(** The path from tile 0 to tile 1 by way of tile 2, both moves in the
    first turn. *)
Definition triangle_path : find_path_result :=
  mk_result false
    [(2, 0, 0, Order.mk_order ORDER_MOVE None 0 (DIR8 6));
     (1, 0, 0, Order.mk_order ORDER_MOVE None 0 (DIR8 0))].

(** The two entries at tile 0 after the search: the root and the wait for
    full move points. *)
Definition triangle_root : entry := (0%nat, root_vertex (walker 3)).
Definition triangle_wait : entry :=
  (3%nat, Vertex.mk_vertex 0 None false (Cost.mk_cost 1 5 10 0) (Some 0%nat)
            (Order.mk_order ORDER_FULL_MP None 0 (DIR8 0))).

(** The entry at tile 1 that the path ends in. *)
Definition triangle_arrival : entry :=
  (5%nat, Vertex.mk_vertex 1 None true (Cost.mk_cost 0 1 10 0) (Some 2%nat)
            (Order.mk_order ORDER_MOVE None 0 (DIR8 0))).

Lemma find_path_triangle :
  find_path triangle 9 (Some 1) (construct (walker 3))
  = Done (triangle_path, triangle_searched).
Proof. vm_compute. reflexivity. Qed.

Lemma frontier_is_pareto_witness :
  bucket 0 (best_vertices triangle_searched) !! 1%nat = Some triangle_wait
  /\ ~ Cost.dominates (Vertex.cost triangle_root.2) (Vertex.cost triangle_wait.2).
Proof.
  split; [vm_compute; reflexivity|].
  refine (frontier_is_pareto triangle triangle_searched reachable_triangle_searched
            0 0%nat 1%nat triangle_root triangle_wait _ _ _ _ _).
  - discriminate.
  - vm_compute. reflexivity.
  - vm_compute. reflexivity.
  - reflexivity.
  - reflexivity.
Defined.

Lemma path_extraction_terminates_witness :
  (exists steps : list step,
     build_steps 5 (best_vertices triangle_searched) triangle_arrival.2 = Done steps
     /\ (length steps <= triangle_arrival.1)%nat)
  \/ build_steps 5 (best_vertices triangle_searched) triangle_arrival.2
     = Undefined DanglingVertex.
Proof.
  refine (path_extraction_terminates triangle triangle_searched
            reachable_triangle_searched 5 1 triangle_arrival _ _).
  - vm_compute. apply list_elem_of_further, list_elem_of_here.
  - simpl. lia.
Defined.

Lemma returned_path_shape_witness :
  (exists s : step, last (steps triangle_path) = Some s /\ step_location s = 1)
  /\ StronglySorted (fun s t => step_turns s <= step_turns t) (steps triangle_path)
  /\ Forall (fun s => 0 <= step_turns s /\ s.1.2 = step_turns s) (steps triangle_path)
  /\ (length (steps triangle_path) < next_address triangle_searched)%nat.
Proof.
  refine (returned_path_shape triangle (construct (walker 3)) triangle_searched 9 1
            triangle_path (reachable_construct triangle (walker 3))
            find_path_triangle _).
  discriminate.
Defined.

Lemma find_path_again_witness :
  find_path triangle 9 (Some 1) triangle_searched
  = Done (triangle_path, triangle_searched).
Proof.
  refine (find_path_again triangle (construct (walker 3)) triangle_searched 9 1
            triangle_path find_path_triangle _).
  discriminate.
Defined.

Lemma unit_never_changes_witness :
  unit triangle_searched = unit (construct (walker 3)).
Proof.
  exact (proj2 (unit_never_changes triangle) 9%nat (Some 1) (construct (walker 3))
           triangle_searched triangle_path find_path_triangle).
Defined.

Lemma select_best_minimal_witness :
  exists it : entry,
    it ∈ bucket 1 (best_vertices triangle_searched) /\ it.2 = triangle_arrival.2.
Proof.
  refine (proj1 (proj2 (select_best_minimal (bucket 1 (best_vertices triangle_searched)))
                   triangle_arrival.2 _)).
  vm_compute. reflexivity.
Defined.

(** ** The test of [run_search] for a vertex that left the queue *)

Lemma foldr_min_elem_of (k0 : Z) (ks : list Z) : foldr Z.min k0 ks ∈ k0 :: ks.
Proof.
  induction ks as [|k ks IH]; simpl; [apply list_elem_of_here|].
  destruct (Z.min_spec k (foldr Z.min k0 ks)) as [[_ ->]|[_ ->]].
  - apply list_elem_of_further, list_elem_of_here.
  - apply elem_of_cons in IH as [->|IH]; [apply list_elem_of_here|].
    by do 2 apply list_elem_of_further.
Qed.

(** The end of a range is the end of the multimap exactly when no tile
    above has an entry. *)
Lemma after_bucket_None (k : tile) (bv : gmap Z (list entry)) :
  after_bucket k bv = None <-> forall k' : tile, k < k' -> bucket k' bv = [].
Proof.
  unfold after_bucket.
  set (f := fun k' => (k <? k') && negb (bool_decide (bucket k' bv = []))).
  destruct (List.filter f (map fst (map_to_list bv))) as [|k0 ks] eqn:Hab.
  - split; [|done]. intros _ k' Hk'.
    unfold bucket, tile in *. destruct (bv !! k') as [l|] eqn:Hl; [|done]. simpl.
    assert (In k' (map fst (map_to_list bv))) as Hin.
    { apply in_map_iff. exists (k', l). split; [done|].
      by apply list_elem_of_In, elem_of_map_to_list. }
    destruct (f k') eqn:Hf.
    + assert (In k' (List.filter f (map fst (map_to_list bv)))) as Hin'
        by by apply filter_In.
      by rewrite Hab in Hin'.
    + unfold f in Hf. apply andb_false_iff in Hf as [Hf|Hf].
      * apply Z.ltb_ge in Hf. lia.
      * apply negb_false_iff, bool_decide_eq_true in Hf. unfold bucket, tile in Hf.
        by rewrite Hl in Hf.
  - pose proof (foldr_min_elem_of k0 ks) as Hmin.
    rewrite <- Hab in Hmin. apply list_elem_of_In, filter_In in Hmin as [_ Hf].
    unfold f in Hf. apply andb_true_iff in Hf as [Hlt Hne].
    apply Z.ltb_lt in Hlt. apply negb_true_iff, bool_decide_eq_false in Hne.
    split.
    + intros Hhead. destruct (bucket (foldr Z.min k0 ks) bv); done.
    + intros Hall. by specialize (Hall _ Hlt).
Qed.

(** X16: when the loop of [run_search] skips a vertex that left the
    queue, as the code has it (the intent is the first condition alone).
    The test finds no current vertex exactly when no entry at the tile of
    the vertex is equal to it and, besides, no tile above that tile has an
    entry.  When an entry at the tile is equal to the vertex, the test
    gives an entry of that tile with the location and the cost of the
    vertex. *)
Theorem current_best_skips_exactly_when (v : Vertex.vertex) (bv : gmap Z (list entry)) :
  (current_best v bv = None <->
   (forall e : entry, e ∈ bucket (Vertex.location v) bv -> Vertex.eq e.2 v = false)
   /\ (forall k' : tile, Vertex.location v < k' -> bucket k' bv = []))
  /\ (forall e : entry,
        e ∈ bucket (Vertex.location v) bv -> Vertex.eq e.2 v = true ->
        exists e' : entry,
          current_best v bv = Some e' /\ e' ∈ bucket (Vertex.location v) bv
          /\ Vertex.location e'.2 = Vertex.location v
          /\ Vertex.cost e'.2 = Vertex.cost v).
Proof.
  unfold current_best. split.
  - destruct (List.find _ (bucket (Vertex.location v) bv)) as [e|] eqn:Hf.
    + split; [done|]. intros [Hall _]. apply List.find_some in Hf as [Hin He].
      apply list_elem_of_In in Hin. rewrite (Hall e Hin) in He. done.
    + rewrite after_bucket_None. split.
      * intros Hnone. split; [|done]. intros e He.
        by apply (List.find_none _ _ Hf), list_elem_of_In.
      * by intros [_ ?].
  - intros e He Heq.
    destruct (List.find _ (bucket (Vertex.location v) bv)) as [e'|] eqn:Hf.
    + apply List.find_some in Hf as [Hin He']. exists e'.
      split; [done|]. split; [by apply list_elem_of_In|].
      by apply vertex_eq_spec.
    + apply list_elem_of_In in He.
      pose proof (List.find_none _ _ Hf e He) as Hfalse. simpl in Hfalse. congruence.
Qed.

Lemma current_best_skips_exactly_when_witness :
  exists e' : entry,
    current_best triangle_arrival.2 (best_vertices triangle_searched) = Some e'
    /\ e' ∈ bucket (Vertex.location triangle_arrival.2) (best_vertices triangle_searched)
    /\ Vertex.location e'.2 = Vertex.location triangle_arrival.2
    /\ Vertex.cost e'.2 = Vertex.cost triangle_arrival.2.
Proof.
  refine (proj2 (current_best_skips_exactly_when triangle_arrival.2
                   (best_vertices triangle_searched)) triangle_arrival _ _).
  - vm_compute. apply list_elem_of_further, list_elem_of_here.
  - reflexivity.
Defined.

(** ** Vertices made by actions *)

(** X17: the vertices made by actions and their moves left, as the code
    has them (the comment of [child_for_action] speaks of a subtraction).
    [child_for_action] gives the vertex what the unit pays for the action
    as its moves left, whatever the source had, and takes every other
    member from the source, with the source as parent and the order to
    perform the action on the target.  The load rule makes exactly these
    vertices: one for boarding the transport of the tile, if that is
    enabled, with what boarding costs as moves left, and one for each
    neighbouring tile with a transport to embark on, with what embarking
    costs less the move cost to that tile.  The unload rule makes, from a
    loaded source only, one vertex for alighting with what alighting costs
    and one for each neighbouring tile and each enabled kind of
    disembarking, with what that action costs less the move cost to the
    tile.  Unlike a move, which leaves zero at least, the subtraction has
    no lower bound. *)
Theorem action_vertex_moves_left (W : world) (u : Unit.unit) (self : address)
    (source : Vertex.vertex) :
  let probe := Vertex.fill_probe source u in
  let made (action : action_id) (target : tile) (moves_left : Z)
      (loaded : option unit_ref) (moved : bool) : Vertex.vertex :=
    Vertex.mk_vertex (Vertex.location source) loaded moved
      (Cost.mk_cost (Cost.turns (Vertex.cost source)) moves_left
         (Cost.health (Vertex.cost source)) (Cost.fuel_left (Vertex.cost source)))
      (Some self)
      (Order.mk_order ORDER_PERFORM_ACTION (Some action) target DIR8_ORIGIN) in
  (forall (action : action_id) (p : Unit.unit) (target : tile),
     child_for_action W self source action p target
     = made action target (unit_pays_mp_for_action W action p)
         (Vertex.loaded source) (Vertex.moved source))
  /\ (forall (action : action_id) (p : Unit.unit) (target : tile) (moves_left : Z),
        child_for_action W self (Vertex.set_moves_left moves_left source) action p target
        = child_for_action W self source action p target)
  /\ (forall next : Vertex.vertex,
        Candidate next ∈ load_events W u self source <->
        (exists transport : unit_ref,
           transporter_for_unit W probe = Some transport
           /\ is_action_enabled_unit_on_unit W ACTION_TRANSPORT_BOARD probe transport = true
           /\ next = made ACTION_TRANSPORT_BOARD (Vertex.location source)
                       (unit_pays_mp_for_action W ACTION_TRANSPORT_BOARD probe)
                       (Some transport) (Vertex.moved source))
        \/ (exists (target : tile) (transport : unit_ref),
              target ∈ adjc W (Vertex.location source)
              /\ transporter_for_unit W (Unit.set_tile target probe) = Some transport
              /\ is_action_enabled_unit_on_unit W ACTION_TRANSPORT_EMBARK probe transport
                 = true
              /\ next = made ACTION_TRANSPORT_EMBARK target
                          (unit_pays_mp_for_action W ACTION_TRANSPORT_EMBARK probe
                           - map_move_cost_unit W probe target)
                          (Some transport) true))
  /\ (forall next : Vertex.vertex,
        Candidate next ∈ unload_events W u self source <->
        exists transporter : unit_ref,
          Vertex.loaded source = Some transporter
          /\ ((is_action_enabled_unit_on_unit W ACTION_TRANSPORT_ALIGHT probe transporter
               = true
               /\ next = made ACTION_TRANSPORT_ALIGHT (Vertex.location source)
                           (unit_pays_mp_for_action W ACTION_TRANSPORT_ALIGHT probe)
                           None (Vertex.moved source))
              \/ (exists (target : tile) (action : action_id),
                    target ∈ adjc W (Vertex.location source)
                    /\ (action = ACTION_TRANSPORT_DISEMBARK1
                        \/ action = ACTION_TRANSPORT_DISEMBARK2)
                    /\ is_action_enabled_unit_on_tile W action probe target = true
                    /\ next = made action target
                                (unit_pays_mp_for_action W action probe
                                 - map_move_cost_unit W probe target)
                                None true))).
Proof.
  intros probe made.
  split; [by destruct source as [l ld m [t ml h f] p o]|].
  split; [by destruct source as [l ld m [t ml h f] p o]|].
  split.
  - intros next. unfold load_events. fold probe. rewrite elem_of_app.
    rewrite (list_elem_of_In (flat_map _ _)), in_flat_map.
    change (Unit.tile probe) with (Vertex.location source).
    split.
    + intros [Hin|(target & Hadj & Hin)].
      * left. destruct (transporter_for_unit W probe) as [transport|];
          [|by apply elem_of_nil in Hin].
        destruct (is_action_enabled_unit_on_unit W ACTION_TRANSPORT_BOARD probe transport)
          eqn:Hen; [|by apply elem_of_nil in Hin].
        apply list_elem_of_singleton in Hin. injection Hin as ->.
        exists transport. split; [done|]. split; [done|].
        by destruct source as [l ld m [t ml h f] p o].
      * right. apply list_elem_of_In in Hadj.
        destruct (transporter_for_unit W (Unit.set_tile target probe)) as [transport|]
          eqn:Htr; [|by destruct Hin as [|[]]].
        destruct (is_action_enabled_unit_on_unit W ACTION_TRANSPORT_EMBARK probe transport)
          eqn:Hen; [|by destruct Hin as [|[]]].
        destruct Hin as [[= <-]|[]].
        exists target, transport. split; [done|]. split; [done|]. split; [done|].
        by destruct source as [l ld m [t ml h f] p o].
    + intros [(transport & Htr & Hen & ->)|(target & transport & Hadj & Htr & Hen & ->)].
      * left. rewrite Htr, Hen. apply list_elem_of_singleton. f_equal;
          by destruct source as [l ld m [t ml h f] p o].
      * right. exists target. split; [by apply list_elem_of_In|].
        rewrite Htr, Hen. left. f_equal;
          by destruct source as [l ld m [t ml h f] p o].
  - intros next. unfold unload_events. fold probe.
    change (Unit.transporter probe) with (Vertex.loaded source).
    change (Unit.tile probe) with (Vertex.location source).
    destruct (Vertex.loaded source) as [transporter|] eqn:Hl.
    + rewrite elem_of_app.
      rewrite (list_elem_of_In (flat_map _ _)), in_flat_map.
      split.
      * intros [Hin|(target & Hadj & Hin)]; exists transporter; (split; [done|]).
        -- left.
           destruct (is_action_enabled_unit_on_unit W ACTION_TRANSPORT_ALIGHT probe
                       transporter) eqn:Hen; [|by apply elem_of_nil in Hin].
           apply list_elem_of_singleton in Hin. injection Hin as ->.
           split; [done|]. destruct source as [l ld m [t ml h f] p o]. simpl in *.
           by subst ld.
        -- right. apply list_elem_of_In in Hadj. apply in_app_or in Hin as [Hin|Hin].
           ++ destruct (is_action_enabled_unit_on_tile W ACTION_TRANSPORT_DISEMBARK1
                          probe target) eqn:Hen; [|done].
              destruct Hin as [[= <-]|[]].
              exists target, ACTION_TRANSPORT_DISEMBARK1.
              split; [done|]. split; [by left|]. split; [done|].
              by destruct source as [l ld m [t ml h f] p o].
           ++ destruct (is_action_enabled_unit_on_tile W ACTION_TRANSPORT_DISEMBARK2
                          probe target) eqn:Hen; [|done].
              destruct Hin as [[= <-]|[]].
              exists target, ACTION_TRANSPORT_DISEMBARK2.
              split; [done|]. split; [by right|]. split; [done|].
              by destruct source as [l ld m [t ml h f] p o].
      * intros (transporter' & [= <-] & [(Hen & ->)|(target & action & Hadj & Hact & Hen & ->)]).
        -- left. rewrite Hen. apply list_elem_of_singleton. f_equal;
             destruct source as [l ld m [t ml h f] p o]; simpl in *; by subst ld.
        -- right. exists target. split; [by apply list_elem_of_In|].
           apply in_or_app. destruct Hact as [-> | ->]; [left|right];
             rewrite Hen; left; f_equal;
             try by destruct source as [l ld m [t ml h f] p o].
    + split; [by intros ?%elem_of_nil|]. by intros (? & ? & _).
Qed.

(** ** Tiles of the frontier and the constructor *)

Section Tiles.

Context (W : world).

Lemma maybe_insert_vertex_keeps_tiles v st k :
  bucket k (best_vertices st) <> [] ->
  bucket k (best_vertices (maybe_insert_vertex W v st)) <> [].
Proof.
  intros Hne.
  destruct (decide (k = Vertex.location v)) as [->|Hk];
    [|by rewrite maybe_insert_vertex_elsewhere].
  destruct (turn_change W (unit st) v) as [insert|] eqn:Ht;
    [|unfold maybe_insert_vertex; by rewrite Ht].
  rewrite (maybe_insert_vertex_range W v st insert Ht).
  destruct ((scan insert _).2) eqn:Hd; [|by apply scan_not_empty].
  by destruct ((scan insert _).1).
Qed.

(** X18: a tile that the frontier knows stays known.  A call of
    [find_path] that returns leaves an entry at every tile that had one,
    so that a later search for such a tile can still use what was found;
    only [unit_changed] empties tiles. *)
Theorem find_path_keeps_tiles (fuel : nat) (destination : option tile)
    (st st' : path_finder_private) (r : find_path_result) :
  find_path W fuel destination st = Done (r, st') ->
  forall k : tile,
    bucket k (best_vertices st) <> [] -> bucket k (best_vertices st') <> [].
Proof.
  intros Hfind k Hk. revert Hfind.
  apply (preserved_find_path W (fun s => bucket k (best_vertices s) <> [])); [| |done].
  - intros v s _. apply maybe_insert_vertex_keeps_tiles.
  - done.
Qed.

End Tiles.

Lemma find_path_keeps_tiles_witness :
  bucket 0 (best_vertices triangle_searched) <> [].
Proof.
  refine (find_path_keeps_tiles triangle 9 (Some 1) (construct (walker 3))
            triangle_searched triangle_path find_path_triangle 0 _).
  vm_compute. discriminate.
Defined.

(** X19: what the constructor leaves.  A new path finder holds the unit
    it was made for; its queue holds one vertex, and its frontier one
    entry, at the tile of the unit: the root, at turn 0 with the moves
    left, hit points and fuel of the unit, its transporter and its moved
    flag, without parent.  A search for the tile of the unit itself returns
    no steps and leaves this state. *)
Theorem construct_seeds_root (u : Unit.unit) :
  let st := construct u in
  unit st = u
  /\ queue st = [root_vertex u]
  /\ (forall k : tile,
        bucket k (best_vertices st)
        = if decide (k = Unit.tile u) then [(0%nat, root_vertex u)] else [])
  /\ next_address st = 1%nat
  /\ Vertex.cost (root_vertex u)
     = Cost.mk_cost 0 (Unit.moves_left u) (Unit.hp u) (Unit.fuel u)
  /\ Vertex.parent (root_vertex u) = None
  /\ (forall (W : world) (fuel : nat),
        find_path W fuel (Some (Unit.tile u)) st = Done (mk_result false [], st)).
Proof.
  intros st. split; [done|]. split; [done|]. split; [|split; [done|]].
  - intros k. subst st. unfold construct, insert_initial_vertex, bucket. simpl.
    rewrite lookup_empty. simpl.
    destruct (decide (k = Unit.tile u)) as [->|Hne].
    + by rewrite lookup_insert_eq.
    + rewrite lookup_insert_ne by done. by rewrite lookup_empty.
  - split; [done|]. split; [done|]. intros W fuel. unfold find_path.
    destruct (Unit.stay (unit st)); [done|]. by rewrite bool_decide_eq_true_2.
Qed.

(** On [steep_ferry_world] the unit pays one fragment to embark and the
    move to tile 1 costs three: the vertex of the embarking has two
    fragments less than none. *)
Lemma action_vertex_moves_left_witness :
  Candidate
    (Vertex.mk_vertex 0 (Some 8) true (Cost.mk_cost 0 (-2) 10 0) (Some 0%nat)
       (Order.mk_order ORDER_PERFORM_ACTION (Some ACTION_TRANSPORT_EMBARK) 1
          DIR8_ORIGIN))
  ∈ load_events steep_ferry_world (walker 3) 0%nat (root_vertex (walker 3)).
Proof.
  apply (proj1 (proj2 (proj2 (action_vertex_moves_left steep_ferry_world (walker 3)
                                0%nat (root_vertex (walker 3)))))).
  right. exists 1, 8. split; [apply list_elem_of_here|].
  split; [reflexivity|]. split; reflexivity.
Defined.
